(** * The guides collection of ggplot/guides/guides.py

    A shallow embedding of the [guides] class (a [dict] subclass that
    resolves, merges, draws and packs the legends of a plot) together
    with the properties of its pipeline.

    Python objects that are shared and mutated in place (the guide
    definitions, the theme parameters) live in an explicit store that is
    threaded through every operation; an exception leaves the store as it
    was when the exception was raised. *)

From Stdlib Require Import ZArith String List Lia.
From stdpp Require Import base option list gmap strings sorting.

Open Scope string_scope.
Open Scope list_scope.
Open Scope Z_scope.

(** ** Python values *)

(** Guide definitions are heap objects; a reference is an address. *)
Definition loc := nat.

(** The values that flow through the code: [None], booleans, strings,
    numbers, references to guide objects (instances of [guide_class]) and
    any other object. *)
Inductive value :=
| VNone
| VBool (b : bool)
| VStr (s : string)
| VNum (z : Z)
| VGuide (l : loc)
| VObj (n : nat).

Global Instance value_eq_dec : EqDecision value.
Proof. solve_decision. Defined.

(** [is_string(v)] *)
Definition is_string (v : value) : bool :=
  match v with VStr _ => true | _ => false end.

(** [v is None] *)
Definition is_None (v : value) : bool :=
  match v with VNone => true | _ => false end.

(** [v is False] *)
Definition is_False (v : value) : bool :=
  match v with VBool false => true | _ => false end.

(** Exceptions.  [GgplotError] carries the positional arguments it was
    raised with; messages built with [str.format] keep their operands. *)
Inductive exn :=
| GgplotError (args : list string)
| GgplotError_unknown_guide (g : value)
| GgplotError_cannot_be_used (cls : string) (aes : list string)
| KeyError (key : string)
| IndexError.

Global Instance exn_eq_dec : EqDecision exn.
Proof. solve_decision. Defined.

(** ** [guides.__init__] *)

Definition aes_names : list string :=
  ["alpha"; "color"; "fill"; "linetype"; "shape"; "size"].

(** [kwargs] is the keyword dictionary of the call; the result is the
    content of the new [guides] dictionary. *)
Definition guides_init (kwargs : gmap string value) : gmap string value :=
  let kwargs :=
    match kwargs !! "colour" with
    | Some v => <["color" := v]> (delete "colour" kwargs)
    | None => kwargs
    end in
  filter (λ kv, kv.1 ∈ aes_names) kwargs.

(** ** Collaborators' data

    The guide class, the scales, the theme and the plot are defined in
    other modules of the package; what follows records the attributes
    this module reads and writes. *)

(** Modelled from the spec: the guide objects of [.guide].
    [available_aes] is either the token ['any'] ([None] here) or a
    collection of aesthetic names; [title] is either a string or the
    waiver ([None] here); [order] is an integer and [hash] a comparable
    key, a string here. *)
Record guide := mk_guide {
  class_name : string;
  available_aes : option (list string);
  title : option string;
  direction : value;
  order : Z;
  hash : string
}.

Definition set_title (t : string) (g : guide) : guide :=
  mk_guide (class_name g) (available_aes g) (Some t) (direction g) (order g) (hash g).
Definition set_direction (d : value) (g : guide) : guide :=
  mk_guide (class_name g) (available_aes g) (title g) d (order g) (hash g).
Definition set_order (o : Z) (g : guide) : guide :=
  mk_guide (class_name g) (available_aes g) (title g) (direction g) o (hash g).

(** Modelled from the spec: a scale, with its [aesthetics], [guide] and
    [name]; [scale_id] stands for the rest of the object. *)
Record scale := mk_scale {
  aesthetics : list string;
  scale_guide : value;
  scale_name : option string;
  scale_id : nat
}.

(** Modelled from the spec: the plot with its [scales] and [labels]; its
    theme parameters are mutable and live in the store below. *)
Record plot := mk_plot {
  scales : list scale;
  labels : gmap string string
}.

(** The store of guide objects.  A Python reference always points at an
    object, so the store is total. *)
Definition heap := loc → guide.

Definition upd (h : heap) (l : loc) (f : guide → guide) : heap :=
  λ l', if decide (l' = l) then f (h l) else h l'.

(** Calls into the collaborators, in the order they happen. *)
Inductive event :=
| EvInstantiate (key : string)
| EvTrain (l : loc) (sc : nat)
| EvMerge (l other : loc)
| EvCreateGeoms (l : loc)
| EvSetDefaults (l : loc)
| EvDraw (l : loc).

Global Instance event_eq_dec : EqDecision event.
Proof. solve_decision. Defined.

(** The mutable state: [plot.theme.params], the guide objects, and the
    log of collaborator calls. *)
Record world := mk_world {
  params : gmap string value;
  objects : heap;
  trace : list event
}.

(** ** State and exception monad *)

Definition M (A : Type) : Type := world → world * (exn + A).

Definition ret {A} (a : A) : M A := λ w, (w, inr a).
Definition raise {A} (e : exn) : M A := λ w, (w, inl e).
Definition bind {A B} (m : M A) (k : A → M B) : M B :=
  λ w, match m w with
       | (w', inr a) => k a w'
       | (w', inl e) => (w', inl e)
       end.

Notation "'let*' x ':=' m 'in' k" := (bind m (λ x, k))
  (at level 10, x name, m at level 100, k at level 200).
Notation "'do' m 'in' k" := (bind m (λ _, k))
  (at level 10, m at level 100, k at level 200).

(** [params[key]] *)
Definition get_param (key : string) : M value :=
  λ w, match params w !! key with
       | Some v => (w, inr v)
       | None => (w, inl (KeyError key))
       end.

(** [params[key] = val] *)
Definition put_param (key : string) (val : value) : M unit :=
  λ w, (mk_world (<[key := val]> (params w)) (objects w) (trace w), inr tt).

(** Attribute read and attribute write on a guide object. *)
Definition read (l : loc) : M guide := λ w, (w, inr (objects w l)).
Definition write (l : loc) (f : guide → guide) : M unit :=
  λ w, (mk_world (params w) (upd (objects w) l f) (trace w), inr tt).

Definition log (e : event) (w : world) : world :=
  mk_world (params w) (objects w) (trace w ++ [e]).

(** A rendered guide box is opaque here; the packed box records the packer
    and its arguments. *)
Inductive packer := VPacker | HPacker.

Record packed (Box : Type) := mk_packed {
  pk_packer : packer;
  pk_children : list Box;
  pk_align : value;
  pk_pad : Z;
  pk_sep : Z
}.
Arguments mk_packed {Box}.
Arguments pk_packer {Box}.
Arguments pk_children {Box}.
Arguments pk_align {Box}.
Arguments pk_pad {Box}.
Arguments pk_sep {Box}.

(** The error raised by [assemble] for a bad [order]: [GgplotError] is
    called with two positional arguments. *)
Definition order_error : exn :=
  GgplotError ["'order' for a guide should be"; "between 0 and 99"].

Definition legend_box_error : exn :=
  GgplotError ["'legend_box' should be either"; "'vertical' or 'horizontal'"].

(** What [np.argsort] has to deliver: the indices [0 .. len(keys) - 1] in
    some order along which the keys never decrease. *)
Definition key_le (keys : list Z) (i j : nat) : Prop :=
  nth i keys 0 ≤ nth j keys 0.

Definition is_argsort (keys : list Z) (idx : list nat) : Prop :=
  idx ≡ₚ seq 0 (length keys) ∧ StronglySorted (key_le keys) idx.

Global Instance key_le_dec keys i j : Decision (key_le keys i j).
Proof. unfold key_le. apply _. Defined.

(** The sort key that the first loop of [assemble] leaves on a guide
    whose [order] was [o]. *)
Definition normalized (o : Z) : Z := if o =? 0 then 100 else o.

(** The value of an option of the theme once it has been filled in. *)
Definition or_default (cur val : value) : value :=
  if is_None cur then val else cur.

(** An operation is framed when it leaves the theme parameters alone and
    only adds to the log of collaborator calls. *)
Definition framed {A} (m : M A) : Prop :=
  ∀ w w' r, m w = (w', r) →
    params w' = params w ∧ trace w `prefix_of` trace w'.

(** The exceptions of an operation all satisfy [P]. *)
Definition raises_only {A} (P : exn → Prop) (m : M A) : Prop :=
  ∀ w w' e, m w = (w', inl e) → P e.

Definition not_order_error (e : exn) : Prop := e ≠ order_error.

(** An operation that only works on the theme: the guide objects and the
    log stay as they are. *)
Definition theme_only {A} (m : M A) : Prop :=
  ∀ w w' r, m w = (w', r) → objects w' = objects w ∧ trace w' = trace w.

(** The legend options that [build] fills in. *)
Definition legend_options : list string :=
  ["legend_box"; "legend_key_width"; "legend_key_height"; "legend_position";
   "legend_direction"; "legend_box_just"].

(** ** [guides.__radd__]

    [gg + guides(...)] copies every guide of the collection into the
    guides of the plot.  [copy.deepcopy] creates objects, so the store here
    also says which addresses are in use: those below [next]. *)
Record store := mk_store {
  cells : heap;
  next : loc
}.

(** [deepcopy(v)]: a guide object is copied to a new object with the same
    attributes; [None], booleans, strings and numbers are immutable and are
    returned as they are.  Other objects carry no state here and are
    represented by the same token. *)
Definition deepcopy (v : value) (s : store) : store * value :=
  match v with
  | VGuide l =>
      (mk_store (upd (cells s) (next s) (λ _, cells s l)) (S (next s)),
       VGuide (next s))
  | _ => (s, v)
  end.

(** The loop [for k in self: new_guides[k] = deepcopy(self[k])], over the
    items of [self] in the order of the dictionary. *)
Fixpoint copy_guides (items : list (string * value))
    (new_guides : gmap string value) (s : store)
  : store * gmap string value :=
  match items with
  | [] => (s, new_guides)
  | (k, v) :: items =>
      let '(s, v') := deepcopy v s in
      copy_guides items (<[k := v']> new_guides) s
  end.

(** [__radd__]: the result is the new content of [gg.guides] (the plot
    itself is returned). *)
Definition guides_radd (items : list (string * value))
    (gg_guides : gmap string value) (s : store)
  : store * gmap string value :=
  let '(s, new_guides) := copy_guides items ∅ s in
  (s, new_guides ∪ gg_guides).

(** The scales on which a [train] method was called, as the log shows
    them. *)
Definition trained_scales (evs : list event) : list nat :=
  omap (λ e, match e with EvTrain _ sc => Some sc | _ => None end) evs.

(** An operation that calls no collaborator. *)
Definition silent {A} (m : M A) : Prop :=
  ∀ w w' r, m w = (w', r) → trace w' = trace w.

(** ** Concrete collaborators

    Simple guide methods, a sorting routine that meets [is_argsort], and
    a small plot; they are used to run the pipeline on concrete
    inputs. *)
Module Sample.

Definition registry : gmap string (heap → heap * value) :=
  {[ "guide_legend" := λ h : heap, (h, VGuide 5%nat) ]}.

Definition guide_train (h : heap) (l : loc) (sc : scale)
  : heap * option loc := (h, Some l).
Definition guide_merge (h : heap) (l other : loc) : heap * loc := (h, l).
Definition guide_create_geoms (h : heap) (p : gmap string value)
  (plt : plot) (l : loc) : heap * option loc := (h, Some l).
Definition guide_set_defaults (h : heap) (p : gmap string value) (l : loc)
  : heap := h.
(** The box drawn for the guide at address [l] is the number [l]. *)
Definition guide_draw (h : heap) (p : gmap string value) (l : loc)
  : heap * nat := (h, l).

(** Indices sorted by key, equal keys in their original order. *)
Definition argsort_stable (keys : list Z) : list nat :=
  merge_sort (key_le keys) (seq 0 (length keys)).

(** Every guide object is a legend for any aesthetic, with the title
    and direction still open; the object at address [l] has order
    [orders l] and hash [hashes l]. *)
Definition legends (orders : loc → Z) (hashes : loc → string) : heap :=
  λ l, mk_guide "guide_legend" None None VNone (orders l) (hashes l).

Definition theme_params : gmap string value :=
  list_to_map
    [("legend_box", VNone); ("legend_key_size", VNum 18);
     ("legend_key_width", VNone); ("legend_key_height", VNone);
     ("legend_position", VNone); ("legend_direction", VNone);
     ("legend_box_just", VNone)].

Definition world_of (h : heap) : world := mk_world theme_params h [].

(** The same theme with the legend placed below the panel. *)
Definition theme_bottom : gmap string value :=
  <["legend_position" := VStr "bottom"]> theme_params.

(** The same theme after [build] has filled in the legend options. *)
Definition theme_filled : gmap string value :=
  list_to_map
    [("legend_box", VStr "vertical"); ("legend_key_size", VNum 18);
     ("legend_key_width", VNum 18); ("legend_key_height", VNum 18);
     ("legend_position", VStr "right");
     ("legend_direction", VStr "vertical");
     ("legend_box_just", VStr "left")].

Definition filled_world_of (h : heap) : world := mk_world theme_filled h [].

(** Orders of the guide objects by address: the listed values for the
    first addresses, 0 elsewhere. *)
Definition orders_of (os : list Z) : loc → Z := λ l, nth l os 0.

Definition color_scale (g : value) : scale :=
  mk_scale ["color"] g (Some "species") 1.
Definition size_scale (g : value) : scale :=
  mk_scale ["size"] g None 2.

Definition plot_of (scs : list scale) : plot :=
  mk_plot scs {[ "color" := "colour of species"; "size" := "body mass" ]}.


(** A heap of colour bars that are only available for ['fill']. *)
Definition fill_only : heap :=
  λ l, mk_guide "guide_colorbar" (Some ["fill"]) None VNone 0 "h".

(** Hashes ["b"] for every guide but the one at address 1, which has
    ["a"]. *)
Definition hashes_ba : loc → string :=
  λ l, if decide (l = 1%nat) then "a" else "b".

(** The theme without its [legend_key_size]. *)
Definition theme_no_size : gmap string value :=
  delete "legend_key_size" theme_params.

(** A collection that holds one guide object under two keys, and a
    store in which that object is the only one. *)
Definition shared_items : list (string * value) :=
  [("color", VGuide 0%nat); ("fill", VGuide 0%nat); ("size", VStr "legend")].

Definition one_legend : store :=
  mk_store (legends (λ _, 0) (λ _, "h")) 1%nat.

End Sample.

(** ** The pipeline *)

Section Pipeline.

(** The type of the boxes that [guide.draw] returns. *)
Context {Box : Type}.

(** Modelled from the spec: the [Registry] of [..utils], a lookup by
    string key that yields a zero-argument constructor; a constructor
    allocates an object and returns it.  A guide specification that is
    not a registered identifier fails with the configuration error
    "Unknown guide". *)
Variable Registry : gmap string (heap → heap * value).

(** The methods of the guide objects: they may mutate the guide objects
    and return a reference (or nothing where the code tests for it); they
    do not write to the theme parameters and do not raise. *)
Variable guide_train : heap → loc → scale → heap * option loc.
Variable guide_merge : heap → loc → loc → heap * loc.
Variable guide_create_geoms :
  heap → gmap string value → plot → loc → heap * option loc.
Variable guide_set_defaults : heap → gmap string value → loc → heap.
Variable guide_draw : heap → gmap string value → loc → heap * Box.

(** [np.argsort] with its default arguments. *)
Variable argsort : list Z → list nat.

(** *** [build]: the legend options of the theme *)

Definition set_if_none (key : string) (val : value) : M unit :=
  let* cur := get_param key in
  if is_None cur then put_param key val else ret tt.

Definition in_top_bottom (position : value) : bool :=
  bool_decide (position = VStr "top") || bool_decide (position = VStr "bottom").

Definition in_left_right (position : value) : bool :=
  bool_decide (position = VStr "left") || bool_decide (position = VStr "right").

Definition set_legend_defaults : M unit :=
  do set_if_none "legend_box" (VStr "vertical") in
  let* size := get_param "legend_key_size" in
  do set_if_none "legend_key_width" size in
  let* size := get_param "legend_key_size" in
  do set_if_none "legend_key_height" size in
  do set_if_none "legend_box" (VStr "vertical") in
  do set_if_none "legend_position" (VStr "right") in
  let* position := get_param "legend_position" in
  do (if in_top_bottom position
      then set_if_none "legend_direction" (VStr "horizontal")
      else set_if_none "legend_direction" (VStr "vertical")) in
  if in_left_right position
  then set_if_none "legend_box_just" (VStr "left")
  else set_if_none "legend_box_just" (VStr "center").

(** *** [validate] *)

(** Modelled from the spec: [Registry[key]()], where a key that is not
    registered fails with the configuration error "Unknown guide". *)
Definition instantiate (key : string) : M value :=
  λ w, match Registry !! key with
       | None => (w, inl (GgplotError_unknown_guide (VStr key)))
       | Some ctor =>
           let '(h, v) := ctor (objects w) in
           (log (EvInstantiate key) (mk_world (params w) h (trace w)), inr v)
       end.

Definition validate (guide : value) : M loc :=
  let* guide :=
    match guide with
    | VStr name => instantiate ("guide_" ++ name)%string
    | _ => ret guide
    end in
  match guide with
  | VGuide l => ret l
  | _ => raise (GgplotError_unknown_guide guide)
  end.

(** *** [train] *)

(** [scale.aesthetics[0]] *)
Definition primary_aes (sc : scale) : M string :=
  match aesthetics sc with
  | ae :: _ => ret ae
  | [] => raise IndexError
  end.

(** [self.get(output, scale.guide)] *)
Definition resolve (self : gmap string value) (output : string) (sc : scale)
  : value :=
  default (scale_guide sc) (self !! output).

(** [plot.labels[output]] *)
Definition get_label (plt : plot) (output : string) : M string :=
  match labels plt !! output with
  | Some s => ret s
  | None => raise (KeyError output)
  end.

(** [guide.train(scale)] *)
Definition call_train (l : loc) (sc : scale) : M (option loc) :=
  λ w, let '(h, r) := guide_train (objects w) l sc in
       (log (EvTrain l (scale_id sc)) (mk_world (params w) h (trace w)), inr r).

(** The body of the loop, from the validation on. *)
Definition train_guide (plt : plot) (sc : scale) (output : string)
    (guide : value) (gdefs : list loc) : M (list loc) :=
  let* l := validate guide in
  let* g := read l in
  do (match available_aes g with
      | Some aes =>
          if bool_decide (output ∈ aes) then ret tt
          else raise (GgplotError_cannot_be_used (class_name g) (aesthetics sc))
      | None => ret tt
      end) in
  do (match title g with
      | None =>
          match scale_name sc with
          | Some (String c n) => write l (set_title (String c n))
          | _ => let* lab := get_label plt output in write l (set_title lab)
          end
      | Some _ => ret tt
      end) in
  let* g := read l in
  do (if is_None (direction g)
      then let* d := get_param "legend_direction" in write l (set_direction d)
      else ret tt) in
  let* r := call_train l sc in
  match r with
  | Some l' => ret (gdefs ++ [l'])
  | None => ret gdefs
  end.

Fixpoint train_loop (self : gmap string value) (plt : plot)
    (scs : list scale) (gdefs : list loc) : M (list loc) :=
  match scs with
  | [] => ret gdefs
  | sc :: scs =>
      let* output := primary_aes sc in
      let guide := resolve self output sc in
      if is_None guide || is_False guide
      then train_loop self plt scs gdefs
      else let* gdefs := train_guide plt sc output guide gdefs in
           train_loop self plt scs gdefs
  end.

Definition train (self : gmap string value) (plt : plot) : M (list loc) :=
  train_loop self plt (scales plt) [].

(** *** [merge] *)

(** The two-column data frame: one row per guide definition, with the
    [hash] the definition has when the frame is built. *)
Definition data_frame (gdefs : list loc) : M (list (loc * string)) :=
  λ w, (w, inr (map (λ g, (g, hash (objects w g))) gdefs)).

(** [df.groupby('hash')]: one group per distinct key, the groups in
    increasing order of the key, the rows of a group in the order of the
    frame. *)
Definition group_names (df : list (loc * string)) : list string :=
  merge_sort String.le (remove_dups (df.*2)).

Definition group_rows (df : list (loc * string)) (name : string) : list loc :=
  (filter (λ row, row.2 = name) df).*1.

Definition groupby (df : list (loc * string)) : list (string * list loc) :=
  map (λ name, (name, group_rows df name)) (group_names df).

(** [gdef.merge(g)] *)
Definition call_merge (gdef g : loc) : M loc :=
  λ w, let '(h, r) := guide_merge (objects w) gdef g in
       (log (EvMerge gdef g) (mk_world (params w) h (trace w)), inr r).

(** The inner loop: [for g in group['gdef'].iloc[1:]]. *)
Fixpoint merge_rest (gdef : loc) (rest : list loc) : M loc :=
  match rest with
  | [] => ret gdef
  | g :: rest => let* gdef := call_merge gdef g in merge_rest gdef rest
  end.

(** The outer loop: [for name, group in grouped]. *)
Fixpoint merge_groups (grouped : list (string * list loc))
    (gdefs : list loc) : M (list loc) :=
  match grouped with
  | [] => ret gdefs
  | (_, group) :: grouped =>
      match group with
      | [] => raise IndexError
      | first :: rest =>
          let* gdef := merge_rest first rest in
          merge_groups grouped (gdefs ++ [gdef])
      end
  end.

Definition merge (gdefs : list loc) : M (list loc) :=
  let* df := data_frame gdefs in
  merge_groups (groupby df) [].

(** *** [create_geoms] *)

(** [gdef.create_geoms(plot)], with a falsy result as [None]. *)
Definition call_create_geoms (plt : plot) (gdef : loc) : M (option loc) :=
  λ w, let '(h, r) := guide_create_geoms (objects w) (params w) plt gdef in
       (log (EvCreateGeoms gdef) (mk_world (params w) h (trace w)), inr r).

Fixpoint create_geoms_loop (plt : plot) (gdefs new_gdefs : list loc)
  : M (list loc) :=
  match gdefs with
  | [] => ret new_gdefs
  | gdef :: gdefs =>
      let* r := call_create_geoms plt gdef in
      match r with
      | Some gdef => create_geoms_loop plt gdefs (new_gdefs ++ [gdef])
      | None => create_geoms_loop plt gdefs new_gdefs
      end
  end.

Definition create_geoms (gdefs : list loc) (plt : plot) : M (list loc) :=
  create_geoms_loop plt gdefs [].

(** *** [draw] *)

(** [g._set_defaults(theme)] *)
Definition call_set_defaults (g : loc) : M unit :=
  λ w, (log (EvSetDefaults g)
          (mk_world (params w) (guide_set_defaults (objects w) (params w) g)
                    (trace w)), inr tt).

(** [g.draw(theme)] *)
Definition call_draw (g : loc) : M Box :=
  λ w, let '(h, b) := guide_draw (objects w) (params w) g in
       (log (EvDraw g) (mk_world (params w) h (trace w)), inr b).

Fixpoint set_defaults_loop (gdefs : list loc) : M unit :=
  match gdefs with
  | [] => ret tt
  | g :: gdefs => do call_set_defaults g in set_defaults_loop gdefs
  end.

Fixpoint draw_loop (gdefs : list loc) : M (list Box) :=
  match gdefs with
  | [] => ret []
  | g :: gdefs =>
      let* b := call_draw g in
      let* bs := draw_loop gdefs in
      ret (b :: bs)
  end.

Definition draw (gdefs : list loc) : M (list Box) :=
  do set_defaults_loop gdefs in draw_loop gdefs.

(** *** [assemble] *)

(** The first loop: [order] 0 becomes 100 on the object, any other value
    outside 0..99 raises. *)
Fixpoint normalize_orders (gdefs : list loc) : M unit :=
  match gdefs with
  | [] => ret tt
  | gdef :: gdefs =>
      let* g := read gdef in
      if order g =? 0
      then do write gdef (set_order 100) in normalize_orders gdefs
      else if negb ((0 <=? order g) && (order g <=? 99))
           then raise order_error
           else normalize_orders gdefs
  end.

(** [[gdef.order for gdef in gdefs]] *)
Definition read_orders (gdefs : list loc) : M (list Z) :=
  λ w, (w, inr (map (λ gdef, order (objects w gdef)) gdefs)).

(** [[gboxes[i] for i in idx]] *)
Fixpoint take_boxes (gboxes : list Box) (idx : list nat) : M (list Box) :=
  match idx with
  | [] => ret []
  | i :: idx =>
      match gboxes !! i with
      | Some b => let* bs := take_boxes gboxes idx in ret (b :: bs)
      | None => raise IndexError
      end
  end.

Definition assemble (gboxes : list Box) (gdefs : list loc) : M (packed Box) :=
  do normalize_orders gdefs in
  let* orders := read_orders gdefs in
  let idx := argsort orders in
  let* gboxes := take_boxes gboxes idx in
  let* direction := get_param "legend_box" in
  let* pack :=
    (if bool_decide (direction = VStr "vertical") then ret VPacker
     else if bool_decide (direction = VStr "horizontal") then ret HPacker
     else raise legend_box_error) in
  let* align := get_param "legend_box_just" in
  ret (mk_packed pack gboxes align 0 20).

(** *** [build] *)

Definition build (self : gmap string value) (plt : plot)
  : M (option (packed Box)) :=
  do set_legend_defaults in
  let* gdefs := train self plt in
  match gdefs with
  | [] => ret None
  | _ =>
      let* gdefs := merge gdefs in
      let* gdefs := create_geoms gdefs plt in
      match gdefs with
      | [] => ret None
      | _ =>
          let* gboxes := draw gdefs in
          let* bigbox := assemble gboxes gdefs in
          ret (Some bigbox)
      end
  end.

(** *** Reference formulations *)

(** A scale that [train] passes over: its resolved guide is [None] or
    [False]. *)
Definition skipped (self : gmap string value) (sc : scale) : bool :=
  match aesthetics sc with
  | ae :: _ =>
      let guide := resolve self ae sc in is_None guide || is_False guide
  | [] => false
  end.

(** Left fold and map in the monad. *)
Fixpoint foldlM {A B} (f : A → B → M A) (a : A) (l : list B) : M A :=
  match l with
  | [] => ret a
  | b :: l => let* a := f a b in foldlM f a l
  end.

Fixpoint forM {A B} (l : list A) (f : A → M B) : M (list B) :=
  match l with
  | [] => ret []
  | a :: l => let* b := f a in let* bs := forM l f in ret (b :: bs)
  end.

(** The merger as the specification words it: one definition per group,
    the left fold of the group under the pairwise merge. *)
Definition merge_by_fold (gdefs : list loc) : M (list loc) :=
  let* df := data_frame gdefs in
  forM (groupby df) (λ grp,
    match grp.2 with
    | first :: rest => foldlM call_merge first rest
    | [] => raise IndexError
    end).

(** * Properties *)

(** ** [guides.__init__] *)

(** C4. Constructing a guides collection never fails (the constructor is
    a total function), every key outside the six recognised aesthetics is
    absent from the collection, and a ['colour'] entry always ends up under
    ['color'] with its value; the other recognised keys keep their
    values. *)
Theorem guides_init_keys (kwargs : gmap string value) :
  (∀ k, k ∉ aes_names → guides_init kwargs !! k = None) ∧
  guides_init kwargs !! "colour" = None ∧
  (∀ v, kwargs !! "colour" = Some v → guides_init kwargs !! "color" = Some v) ∧
  (kwargs !! "colour" = None →
   guides_init kwargs !! "color" = kwargs !! "color") ∧
  (∀ k, k ∈ aes_names → k ≠ "color" →
        guides_init kwargs !! k = kwargs !! k).
Proof.
  assert (Hcolour : "colour" ∉ aes_names).
  { unfold aes_names. rewrite !not_elem_of_cons. repeat split; try discriminate.
    apply not_elem_of_nil. }
  assert (Hcolor : "color" ∈ aes_names) by (unfold aes_names; set_solver).
  assert (Hin : ∀ (m : gmap string value) k, k ∈ aes_names →
            filter (λ kv : string * value, kv.1 ∈ aes_names) m !! k = m !! k).
  { intros m k Hk. destruct (m !! k) as [v|] eqn:E.
    - apply map_lookup_filter_Some. done.
    - apply map_lookup_filter_None. by left. }
  assert (Hout : ∀ (m : gmap string value) k, k ∉ aes_names →
            filter (λ kv : string * value, kv.1 ∈ aes_names) m !! k = None).
  { intros m k Hk. apply map_lookup_filter_None. right. intros v _ Hv. by apply Hk. }
  unfold guides_init. repeat split.
  - intros k Hk. by apply Hout.
  - by apply Hout.
  - intros v Hv. rewrite Hv, Hin by done. apply lookup_insert_eq.
  - intros Hv. rewrite Hv. by apply Hin.
  - intros k Hk Hne. rewrite Hin by done.
    destruct (kwargs !! "colour") as [v|] eqn:E; [|done].
    rewrite lookup_insert_ne by done. apply lookup_delete_ne.
    intros <-. by apply Hcolour.
Qed.

Lemma guides_init_keys_witness :
  let kwargs : gmap string value :=
    <["colour" := VStr "legend"]> (<["color" := VNone]> (<["x" := VNum 1]> ∅)) in
  guides_init kwargs !! "x" = None ∧
  guides_init kwargs !! "color" = Some (VStr "legend").
Proof.
  intros kwargs.
  destruct (guides_init_keys kwargs) as (Hout & _ & Hcol & _).
  split.
  - apply Hout. unfold aes_names. rewrite !not_elem_of_cons.
    repeat split; try discriminate. apply not_elem_of_nil.
  - apply Hcol. reflexivity.
Defined.

(** ** The monad *)

Lemma bind_inr {A B} (m : M A) (k : A → M B) w w' b :
  bind m k w = (w', inr b) →
  ∃ w1 a, m w = (w1, inr a) ∧ k a w1 = (w', inr b).
Proof.
  unfold bind. destruct (m w) as [w1 [e|a]]; [discriminate|]. eauto.
Qed.

Lemma bind_inl {A B} (m : M A) (k : A → M B) w w' e :
  bind m k w = (w', inl e) →
  m w = (w', inl e) ∨ ∃ w1 a, m w = (w1, inr a) ∧ k a w1 = (w', inl e).
Proof.
  unfold bind. destruct (m w) as [w1 [e1|a]]; intros H.
  - left. by injection H as -> ->.
  - right. by exists w1, a.
Qed.

Lemma bind_step {A B} (m : M A) (k : A → M B) w w1 a :
  m w = (w1, inr a) → bind m k w = k a w1.
Proof. unfold bind. by intros ->. Qed.

Lemma bind_fail {A B} (m : M A) (k : A → M B) w w1 e :
  m w = (w1, inl e) → bind m k w = (w1, inl e).
Proof. unfold bind. by intros ->. Qed.

(** ** [assemble]: the first loop *)

Lemma set_order_same g : set_order (order g) g = g.
Proof. by destruct g. Qed.

Lemma upd_eq h l f : upd h l f l = f (h l).
Proof. unfold upd. by rewrite decide_True. Qed.

Lemma upd_ne h l f l' : l' ≠ l → upd h l f l' = h l'.
Proof. unfold upd. intros. by rewrite decide_False. Qed.

(** When the loop runs to its end, every definition had an order in
    0..99, now carries the normalised order, and nothing else changed. *)
Lemma normalize_orders_ok gdefs : ∀ w w',
  normalize_orders gdefs w = (w', inr tt) →
  params w' = params w ∧ trace w' = trace w ∧
  (∀ l, l ∈ gdefs →
        0 ≤ order (objects w l) ≤ 99 ∧
        objects w' l = set_order (normalized (order (objects w l))) (objects w l)) ∧
  (∀ l, l ∉ gdefs → objects w' l = objects w l).
Proof.
  induction gdefs as [|gdef gdefs IH]; intros w w' H.
  - inversion H; subst. split_and!; try done.
    intros l Hl. by apply elem_of_nil in Hl.
  - cbn [normalize_orders] in H. unfold bind at 1 in H. cbn [read] in H.
    destruct (order (objects w gdef) =? 0) eqn:E0.
    + apply Z.eqb_eq in E0. unfold bind at 1 in H. cbn [write] in H.
      apply IH in H as (Hp & Ht & Hin & Hout). cbn in Hp, Ht.
      assert (Hfresh : gdef ∉ gdefs).
      { intros Hg. destruct (Hin _ Hg) as [Hr _]. cbn in Hr.
        rewrite upd_eq in Hr. cbn in Hr. lia. }
      split_and!; try done.
      * intros l Hl. apply elem_of_cons in Hl as [->|Hl].
        -- split; [lia|]. rewrite (Hout _ Hfresh). cbn.
           rewrite upd_eq, E0. done.
        -- assert (l ≠ gdef) by (by intros ->).
           destruct (Hin _ Hl) as [Hr Ho]. cbn in Hr, Ho.
           rewrite upd_ne in Hr, Ho by done. done.
      * intros l Hl. apply not_elem_of_cons in Hl as [Hne Hl].
        rewrite (Hout _ Hl). cbn. by rewrite upd_ne.
    + apply Z.eqb_neq in E0.
      destruct (negb ((0 <=? order (objects w gdef)) && (order (objects w gdef) <=? 99))) eqn:E1;
        [discriminate|].
      apply negb_false_iff, andb_true_iff in E1 as [E1 E2].
      apply Z.leb_le in E1, E2.
      apply IH in H as (Hp & Ht & Hin & Hout).
      split_and!; try done.
      * intros l Hl. destruct (decide (l ∈ gdefs)) as [Hl'|Hl']; [by apply Hin|].
        apply elem_of_cons in Hl as [->|?]; [|done].
        split; [lia|]. rewrite (Hout _ Hl'). unfold normalized.
        destruct (order (objects w gdef) =? 0) eqn:E; [apply Z.eqb_eq in E; lia|].
        by rewrite set_order_same.
      * intros l Hl. apply not_elem_of_cons in Hl as [Hne Hl]. by apply Hout.
Qed.

(** When the loop raises, it raises the order error at some position [i]:
    the definitions before [i] were processed as by a complete run of the
    loop on them, and the definition at [i] has, at that moment, an order
    other than 0 outside 0..99. *)
Lemma normalize_orders_raise gdefs : ∀ w w' e,
  normalize_orders gdefs w = (w', inl e) →
  e = order_error ∧
  ∃ (i : nat) gdef,
    gdefs !! i = Some gdef ∧
    normalize_orders (take i gdefs) w = (w', inr tt) ∧
    ¬ (0 ≤ order (objects w' gdef) ≤ 99).
Proof.
  induction gdefs as [|gdef gdefs IH]; intros w w' e H; [discriminate|].
  cbn [normalize_orders] in H. unfold bind at 1 in H. cbn [read] in H.
  destruct (order (objects w gdef) =? 0) eqn:E0.
  - unfold bind at 1 in H. cbn [write] in H.
    apply IH in H as (-> & i & g & Hi & Hrun & Hbad).
    split; [done|]. exists (S i), g. repeat split; try done.
    cbn [take normalize_orders]. unfold bind at 1. cbn [read]. rewrite E0.
    unfold bind at 1. cbn [write]. done.
  - destruct (negb ((0 <=? order (objects w gdef)) && (order (objects w gdef) <=? 99))) eqn:E1.
    + inversion H; subst. split; [done|]. exists 0%nat, gdef.
      repeat split; try done.
      apply negb_true_iff, andb_false_iff in E1 as [E1|E1];
        apply Z.leb_gt in E1; lia.
    + apply IH in H as (-> & i & g & Hi & Hrun & Hbad).
      split; [done|]. exists (S i), g. repeat split; try done.
      cbn [take normalize_orders]. unfold bind at 1. cbn [read]. rewrite E0, E1. done.
Qed.

(** The loop raises as soon as some definition has an order outside
    0..99. *)
Lemma normalize_orders_bad gdefs : ∀ w l,
  l ∈ gdefs → ¬ (0 ≤ order (objects w l) ≤ 99) →
  ∃ w', normalize_orders gdefs w = (w', inl order_error).
Proof.
  intros w l Hl Hbad.
  destruct (normalize_orders gdefs w) as [w' [e|[]]] eqn:E.
  - apply normalize_orders_raise in E as E'. destruct E' as [-> _]. eauto.
  - apply normalize_orders_ok in E as (_ & _ & Hin & _).
    destruct (Hin _ Hl) as [? _]. done.
Qed.

(** The loop over a concatenation is the loop over the first part
    followed by the loop over the second. *)
Lemma normalize_orders_app gdefs1 gdefs2 : ∀ w,
  normalize_orders (gdefs1 ++ gdefs2) w =
  (do normalize_orders gdefs1 in normalize_orders gdefs2) w.
Proof.
  induction gdefs1 as [|gdef gdefs1 IH]; intros w; [done|].
  cbn [app normalize_orders]. unfold bind, read, write.
  destruct (order (objects w gdef) =? 0).
  - rewrite IH. done.
  - destruct (negb _); [done|]. rewrite IH. done.
Qed.

(** A prefix of the definitions on which the loop raises: the loop
    raises in the same way on every longer prefix. *)
Lemma normalize_orders_take_raise gdefs (i k : nat) w w' e :
  normalize_orders (take i gdefs) w = (w', inl e) → (i ≤ k)%nat →
  normalize_orders (take k gdefs) w = (w', inl e).
Proof.
  intros H Hik.
  replace (take k gdefs) with (take i gdefs ++ take (k - i) (drop i gdefs)).
  - rewrite normalize_orders_app. unfold bind. by rewrite H.
  - rewrite take_take_drop. f_equal. lia.
Qed.

(** ** [assemble]: the rest *)

Lemma take_boxes_world gboxes idx : ∀ w w' r,
  take_boxes gboxes idx w = (w', r) → w' = w.
Proof.
  induction idx as [|i idx IH]; intros w w' r H; cbn in H.
  - by inversion H.
  - destruct (gboxes !! i); [|by inversion H].
    unfold bind at 1 in H.
    destruct (take_boxes gboxes idx w) as [w1 [e|bs]] eqn:E;
      apply IH in E as ->; by inversion H.
Qed.

Lemma take_boxes_inr gboxes idx : ∀ w w' bs,
  take_boxes gboxes idx w = (w', inr bs) →
  Forall2 (λ i b, gboxes !! i = Some b) idx bs.
Proof.
  induction idx as [|i idx IH]; intros w w' bs H; cbn in H.
  - inversion H. constructor.
  - destruct (gboxes !! i) as [b|] eqn:Eb; [|by inversion H].
    apply bind_inr in H as (w1 & bs' & H1 & H2). inversion H2; subst.
    constructor; eauto.
Qed.

Lemma take_boxes_inl gboxes idx : ∀ w w' e,
  take_boxes gboxes idx w = (w', inl e) → e = IndexError.
Proof.
  induction idx as [|i idx IH]; intros w w' e H; cbn in H; [discriminate|].
  destruct (gboxes !! i) as [b|] eqn:Eb; [|by inversion H].
  apply bind_inl in H as [H|(w1 & bs' & H1 & H2)]; [eauto|discriminate].
Qed.

Lemma get_param_inv key w w' r :
  get_param key w = (w', r) →
  w' = w ∧ match r with
           | inr v => params w !! key = Some v
           | inl e => e = KeyError key
           end.
Proof.
  unfold get_param. destruct (params w !! key); intros H; by inversion H.
Qed.

(** What a completed [assemble] did. *)
Lemma assemble_inr gboxes gdefs w w' box :
  assemble gboxes gdefs w = (w', inr box) →
  normalize_orders gdefs w = (w', inr tt) ∧
  ∃ direction,
    params w' !! "legend_box" = Some direction ∧
    (direction = VStr "vertical" ∧ pk_packer box = VPacker ∨
     direction = VStr "horizontal" ∧ pk_packer box = HPacker) ∧
    params w' !! "legend_box_just" = Some (pk_align box) ∧
    pk_pad box = 0 ∧ pk_sep box = 20 ∧
    Forall2 (λ i b, gboxes !! i = Some b)
      (argsort (map (λ gdef, order (objects w' gdef)) gdefs))
      (pk_children box).
Proof.
  unfold assemble. intros H.
  apply bind_inr in H as (w1 & [] & Hnorm & H).
  apply bind_inr in H as (w2 & orders & Hord & H).
  inversion Hord; subst w2 orders; clear Hord.
  apply bind_inr in H as (w2 & bs & Hbs & H).
  apply take_boxes_world in Hbs as Hw; subst w2.
  apply take_boxes_inr in Hbs.
  apply bind_inr in H as (w2 & direction & Hdir & H).
  apply get_param_inv in Hdir as [-> Hdir].
  apply bind_inr in H as (w2 & pack & Hpack & H).
  apply bind_inr in H as (w3 & align & Halign & H).
  apply get_param_inv in Halign as [-> Halign].
  inversion H; subst; clear H.
  assert (w1 = w' ∧ (direction = VStr "vertical" ∧ pack = VPacker ∨
                    direction = VStr "horizontal" ∧ pack = HPacker))
    as [-> Hp].
  { repeat case_bool_decide; inversion Hpack; subst; auto. }
  split; [done|]. exists direction. cbn. done.
Qed.

(** The order error of [assemble] comes from its first loop. *)
Lemma assemble_order_error gboxes gdefs w w' :
  assemble gboxes gdefs w = (w', inl order_error) →
  normalize_orders gdefs w = (w', inl order_error).
Proof.
  unfold assemble. intros H.
  apply bind_inl in H as [H|(w1 & [] & Hnorm & H)]; [done|]. exfalso.
  apply bind_inl in H as [H|(w2 & orders & Hord & H)]; [discriminate|].
  apply bind_inl in H as [H|(w3 & bs & Hbs & H)].
  { by apply take_boxes_inl in H. }
  apply bind_inl in H as [H|(w4 & direction & Hdir & H)].
  { by apply get_param_inv in H as [_ ?]. }
  apply bind_inl in H as [H|(w5 & pack & Hpack & H)].
  { repeat case_bool_decide; by inversion H. }
  apply bind_inl in H as [H|(w6 & align & Halign & H)]; [|discriminate].
  by apply get_param_inv in H as [_ ?].
Qed.

(** C1 (as amended). When [assemble] returns, every guide definition it
    was given carries the normalised order on the object itself: a
    definition whose order was 0 now has order 100, the other definitions
    keep their order (which lies in 1..99), no other attribute and no
    other object has changed. *)
Theorem assemble_persists_order gboxes gdefs w w' box :
  assemble gboxes gdefs w = (w', inr box) →
  (∀ l, l ∈ gdefs → order (objects w l) = 0 → order (objects w' l) = 100) ∧
  (∀ l, l ∈ gdefs → order (objects w l) ≠ 0 →
        1 ≤ order (objects w l) ≤ 99 ∧ objects w' l = objects w l) ∧
  (∀ l, l ∈ gdefs → objects w' l = set_order (order (objects w' l)) (objects w l)) ∧
  (∀ l, l ∉ gdefs → objects w' l = objects w l).
Proof.
  intros H. apply assemble_inr in H as [H _].
  apply normalize_orders_ok in H as (_ & _ & Hin & Hout).
  split_and!; [| | |done].
  - intros l Hl H0. destruct (Hin _ Hl) as [_ ->]. cbn. by rewrite H0.
  - intros l Hl H0. destruct (Hin _ Hl) as [Hr ->]. split; [lia|].
    unfold normalized. apply Z.eqb_neq in H0 as ->. apply set_order_same.
  - intros l Hl. destruct (Hin _ Hl) as [_ ->]. done.
Qed.

(** C10. [assemble] is not atomic: when it raises the order error, the
    loop raised it for the definition at one position [i] of [gdefs].
    The loop ran to its end on the [i] definitions before it, raised on
    the definition at [i], whose order at that moment was outside 0..99,
    and got no further; [w'], the state that the exception leaves behind,
    is the state the loop had reached at [i].  In [w'] every definition
    before [i] carries its normalised order: one whose order was 0 has
    order 100, nothing has been undone, and the objects the loop did not
    reach are as they were. *)
Theorem assemble_not_atomic gboxes gdefs w w' :
  assemble gboxes gdefs w = (w', inl order_error) →
  ∃ (i : nat) gdef,
    gdefs !! i = Some gdef ∧
    ¬ (0 ≤ order (objects w' gdef) ≤ 99) ∧
    (∀ (j : nat) l, (j < i)%nat → gdefs !! j = Some l →
       order (objects w l) = 0 → order (objects w' l) = 100) ∧
    normalize_orders (take i gdefs) w = (w', inr tt) ∧
    normalize_orders (take (S i) gdefs) w = (w', inl order_error) ∧
    (∀ (k : nat) w'', normalize_orders (take k gdefs) w = (w'', inr tt) →
       (k ≤ i)%nat) ∧
    (∀ (j : nat) l, (j < i)%nat → gdefs !! j = Some l →
       0 ≤ order (objects w l) ≤ 99 ∧
       objects w' l =
         set_order (normalized (order (objects w l))) (objects w l)) ∧
    (∀ l, l ∉ take i gdefs → objects w' l = objects w l) ∧
    params w' = params w ∧ trace w' = trace w.
Proof.
  intros H. apply assemble_order_error in H.
  apply normalize_orders_raise in H as (_ & i & gdef & Hi & Hrun & Hbad).
  assert (Hnext : normalize_orders (take (S i) gdefs) w = (w', inl order_error)).
  { rewrite (take_S_r _ _ _ Hi), normalize_orders_app.
    unfold bind at 1. rewrite Hrun.
    cbn [normalize_orders]. unfold bind at 1. cbn [read].
    destruct (order (objects w' gdef) =? 0) eqn:E0;
      [apply Z.eqb_eq in E0; lia|].
    destruct (negb _) eqn:E1; [done|].
    apply negb_false_iff, andb_true_iff in E1 as [E1 E2].
    apply Z.leb_le in E1, E2. lia. }
  pose proof (normalize_orders_ok _ _ _ Hrun) as (Hp & Ht & Hin & Hout).
  assert (Hbefore : ∀ (j : nat) l, (j < i)%nat → gdefs !! j = Some l →
            l ∈ take i gdefs).
  { intros j l Hj Hl. apply list_elem_of_lookup. exists j.
    by rewrite lookup_take_lt. }
  exists i, gdef. split_and!; try done.
  - intros j l Hj Hl H0. destruct (Hin l) as [_ ->]; [by eapply Hbefore|].
    cbn. by rewrite H0.
  - intros k w'' Hk. destruct (decide (k ≤ i)%nat) as [|Hgt]; [done|].
    rewrite (normalize_orders_take_raise _ (S i) k _ _ _ Hnext) in Hk by lia.
    discriminate.
  - intros j l Hj Hl. apply Hin. by eapply Hbefore.
Qed.

(** ** [assemble]: the order of the boxes *)

Lemma StronglySorted_lookup {A} (R : relation A) (l : list A) :
  StronglySorted R l →
  ∀ (p q : nat) x y, (p < q)%nat → l !! p = Some x → l !! q = Some y → R x y.
Proof.
  induction 1 as [|a l Hl IH Ha]; intros p q x y Hpq Hp Hq.
  - by rewrite lookup_nil in Hp.
  - destruct q as [|q]; [lia|]. cbn in Hq. destruct p as [|p].
    + cbn in Hp. inversion Hp; subst. rewrite Forall_forall in Ha.
      apply Ha. apply list_elem_of_lookup. eauto.
    + cbn in Hp. apply (IH p q); [lia|done..].
Qed.

Section Sorted.

(** [np.argsort] returns a sorting permutation of the indices; how it
    arranges equal keys is left open. *)
Hypothesis argsort_ok : ∀ keys, is_argsort keys (argsort keys).

(** C2. What [assemble] does with the boxes: the children of the packed
    box are the guide boxes rearranged along a permutation [idx] of the
    positions, along which the normalised order never decreases; hence
    the box of a guide with order 0 is placed after the box of every
    guide with an order in 1..99.  Where two guides have the same
    normalised order, their boxes come in the sequence [np.argsort]
    returns for equal keys. *)
Theorem assemble_sorted gboxes gdefs w w' box :
  assemble gboxes gdefs w = (w', inr box) →
  ∃ idx : list nat,
    idx ≡ₚ seq 0 (length gdefs) ∧
    Forall2 (λ i b, gboxes !! i = Some b) idx (pk_children box) ∧
    (∀ (p q i j : nat) gi gj,
       (p < q)%nat → idx !! p = Some i → idx !! q = Some j →
       gdefs !! i = Some gi → gdefs !! j = Some gj →
       normalized (order (objects w gi)) ≤ normalized (order (objects w gj))) ∧
    (∀ (p q i j : nat) gi gj,
       idx !! p = Some i → idx !! q = Some j →
       gdefs !! i = Some gi → gdefs !! j = Some gj →
       order (objects w gi) = 0 → 1 ≤ order (objects w gj) ≤ 99 →
       (q < p)%nat).
Proof.
  intros H. apply assemble_inr in H as (Hnorm & _ & _ & _ & _ & _ & _ & Hbs).
  apply normalize_orders_ok in Hnorm as (_ & _ & Hin & _).
  set (keys := map (λ gdef, order (objects w' gdef)) gdefs) in *.
  destruct (argsort_ok keys) as [Hperm Hsorted].
  assert (Hmono : ∀ (p q i j : nat) gi gj,
       (p < q)%nat → argsort keys !! p = Some i → argsort keys !! q = Some j →
       gdefs !! i = Some gi → gdefs !! j = Some gj →
       normalized (order (objects w gi)) ≤ normalized (order (objects w gj))).
  { intros p q i j gi gj Hpq Hp Hq Hi Hj.
    pose proof (StronglySorted_lookup _ _ Hsorted p q i j Hpq Hp Hq) as Hle.
    unfold key_le, keys in Hle.
    rewrite (nth_lookup_Some _ i 0 (order (objects w' gi))) in Hle
      by (by rewrite list_lookup_fmap, Hi).
    rewrite (nth_lookup_Some _ j 0 (order (objects w' gj))) in Hle
      by (by rewrite list_lookup_fmap, Hj).
    destruct (Hin gi) as [_ Egi]; [by eapply list_elem_of_lookup_2|].
    destruct (Hin gj) as [_ Egj]; [by eapply list_elem_of_lookup_2|].
    by rewrite Egi, Egj in Hle. }
  exists (argsort keys). split_and!.
  - unfold keys in Hperm. by rewrite length_map in Hperm.
  - done.
  - done.
  - intros p q i j gi gj Hp Hq Hi Hj H0 H1.
    destruct (lt_eq_lt_dec p q) as [[Hlt|Heq]|Hgt]; [| |done]; exfalso.
    + pose proof (Hmono p q i j gi gj Hlt Hp Hq Hi Hj) as Hle.
      unfold normalized in Hle. rewrite H0 in Hle. cbn in Hle.
      destruct (order (objects w gj) =? 0) eqn:E; [apply Z.eqb_eq in E|]; lia.
    + subst q. rewrite Hp in Hq. inversion Hq; subst j.
      rewrite Hi in Hj. inversion Hj; subst gj. lia.
Qed.

End Sorted.

(** ** [validate] *)

(** C6. A string is looked up in the registry under ["guide_" + name]
    and the constructor found there is called without arguments; a
    specification that is neither a registered identifier nor a guide
    object fails with the configuration error "Unknown guide", and
    [validate] fails in no other way. *)
Theorem validate_cases guide w :
  (∀ name ctor h v,
     guide = VStr name → Registry !! ("guide_" ++ name)%string = Some ctor →
     ctor (objects w) = (h, v) →
     validate guide w =
       (log (EvInstantiate ("guide_" ++ name)%string) (mk_world (params w) h (trace w)),
        match v with
        | VGuide l => inr l
        | _ => inl (GgplotError_unknown_guide v)
        end)) ∧
  (∀ name,
     guide = VStr name → Registry !! ("guide_" ++ name)%string = None →
     ∃ g, validate guide w = (w, inl (GgplotError_unknown_guide g))) ∧
  (is_string guide = false →
     validate guide w =
       (w, match guide with
           | VGuide l => inr l
           | _ => inl (GgplotError_unknown_guide guide)
           end)) ∧
  (∀ w' e, validate guide w = (w', inl e) →
     ∃ g, e = GgplotError_unknown_guide g).
Proof.
  split_and!.
  - intros name ctor h v -> Hreg Hctor. unfold validate, bind, instantiate.
    rewrite Hreg, Hctor. by destruct v.
  - intros name -> Hreg. unfold validate, bind, instantiate. rewrite Hreg. eauto.
  - intros Hs. by destruct guide.
  - intros w' e H. unfold validate in H.
    apply bind_inl in H as [H|(w1 & g & _ & H)].
    + destruct guide; try discriminate. unfold instantiate in H.
      destruct (Registry !! _) as [ctor|]; [by destruct (ctor _)|].
      injection H as _ <-. eauto.
    + destruct g; inversion H; eauto.
Qed.

(** ** [train] *)

Lemma train_loop_cons self plt sc scs gdefs ae rest w :
  aesthetics sc = ae :: rest →
  train_loop self plt (sc :: scs) gdefs w =
    let guide := resolve self ae sc in
    if is_None guide || is_False guide
    then train_loop self plt scs gdefs w
    else bind (train_guide plt sc ae guide gdefs) (train_loop self plt scs) w.
Proof.
  intros Hae. cbn [train_loop]. unfold primary_aes. rewrite Hae.
  unfold bind at 1, ret. cbn. by destruct (_ || _).
Qed.

(** Scales that are passed over can be left out of the plot. *)
Lemma train_loop_filter self plt scs : ∀ gdefs w,
  train_loop self plt scs gdefs w =
  train_loop self plt (filter (λ sc, skipped self sc = false) scs) gdefs w.
Proof.
  induction scs as [|sc scs IH]; intros gdefs w; [done|].
  rewrite filter_cons. destruct (aesthetics sc) as [|ae rest] eqn:Hae.
  - rewrite decide_True by (unfold skipped; by rewrite Hae).
    cbn [train_loop]. unfold primary_aes. rewrite Hae. done.
  - rewrite (train_loop_cons _ _ _ _ _ _ _ _ Hae). cbn zeta.
    destruct (is_None _ || is_False _) eqn:Hs.
    + rewrite decide_False by (unfold skipped; rewrite Hae; cbn zeta; by rewrite Hs).
      apply IH.
    + rewrite decide_True by (unfold skipped; rewrite Hae; cbn zeta; by rewrite Hs).
      rewrite (train_loop_cons _ _ _ _ _ _ _ _ Hae). cbn zeta. rewrite Hs.
      unfold bind. destruct (train_guide _ _ _ _ _ _) as [w1 [e|gdefs1]]; [done|].
      apply IH.
Qed.

Lemma train_guide_length plt sc ae guide gdefs w w' out :
  train_guide plt sc ae guide gdefs w = (w', inr out) →
  (length out ≤ S (length gdefs))%nat.
Proof.
  unfold train_guide. intros H.
  repeat (apply bind_inr in H as (? & ? & _ & H)).
  case_match; inversion H; subst; rewrite ?length_app; cbn; lia.
Qed.

Lemma train_loop_length self plt scs : ∀ gdefs w w' out,
  train_loop self plt scs gdefs w = (w', inr out) →
  (length out ≤
     length gdefs + length (filter (λ sc, skipped self sc = false) scs))%nat.
Proof.
  induction scs as [|sc scs IH]; intros gdefs w w' out H.
  - inversion H; subst. cbn. lia.
  - rewrite filter_cons. destruct (aesthetics sc) as [|ae rest] eqn:Hae.
    + cbn [train_loop] in H. unfold primary_aes in H. rewrite Hae in H. discriminate.
    + rewrite (train_loop_cons _ _ _ _ _ _ _ _ Hae) in H. cbn zeta in H.
      destruct (is_None _ || is_False _) eqn:Hs.
      * rewrite decide_False by (unfold skipped; rewrite Hae; cbn zeta; by rewrite Hs).
        by apply IH in H.
      * rewrite decide_True by (unfold skipped; rewrite Hae; cbn zeta; by rewrite Hs).
        apply bind_inr in H as (w1 & gdefs1 & H1 & H2).
        apply train_guide_length in H1. apply IH in H2. cbn. lia.
Qed.

(** C5. In [train], the guide of a scale is the entry of the collection
    under the scale's first aesthetic when there is one, and the scale's
    own [guide] otherwise; a scale whose guide resolves to [None] or
    [False] is passed over: the run is the run on the plot without such
    scales, and the result has at most one definition per remaining
    scale. *)
Theorem train_resolution self plt w :
  (∀ sc scs gdefs ae rest,
     aesthetics sc = ae :: rest →
     let guide := match self !! ae with
                  | Some override => override
                  | None => scale_guide sc
                  end in
     skipped self sc = is_None guide || is_False guide ∧
     train_loop self plt (sc :: scs) gdefs w =
       if is_None guide || is_False guide
       then train_loop self plt scs gdefs w
       else bind (train_guide plt sc ae guide gdefs) (train_loop self plt scs) w) ∧
  train self plt w =
    train_loop self plt (filter (λ sc, skipped self sc = false) (scales plt)) [] w ∧
  (∀ w' gdefs,
     train self plt w = (w', inr gdefs) →
     (length gdefs ≤
        length (filter (λ sc, skipped self sc = false) (scales plt)))%nat).
Proof.
  split_and!.
  - intros sc scs gdefs ae rest Hae guide. split.
    + unfold skipped, resolve. rewrite Hae. subst guide. by destruct (self !! ae).
    + rewrite (train_loop_cons _ _ _ _ _ _ _ _ Hae). unfold resolve. subst guide.
      by destruct (self !! ae).
  - apply train_loop_filter.
  - intros w' gdefs H. by apply train_loop_length in H.
Qed.

(** ** [merge] *)

Lemma filter_all {A} (P : A → Prop) `{∀ x, Decision (P x)} (l : list A) :
  (∀ x, x ∈ l → P x) → filter P l = l.
Proof.
  induction l as [|x l IH]; intros Hl; [done|].
  rewrite filter_cons, decide_True by (apply Hl; left).
  f_equal. apply IH. intros y Hy. apply Hl. by right.
Qed.

Lemma filter_split {A} (P Q : A → Prop)
    `{∀ x, Decision (P x)} `{∀ x, Decision (Q x)} (l : list A) :
  (∀ x, P x → Q x → False) →
  filter P l ++ filter Q l ≡ₚ filter (λ x, P x ∨ Q x) l.
Proof.
  intros Hdisj. induction l as [|x l IH]; [done|].
  rewrite !filter_cons.
  destruct (decide (P x)) as [HP|HP], (decide (Q x)) as [HQ|HQ].
  - by destruct (Hdisj x).
  - rewrite decide_True by auto. cbn. by rewrite IH.
  - rewrite decide_True by auto. rewrite <- Permutation_middle. by rewrite IH.
  - rewrite decide_False by tauto. done.
Qed.

(** The groups selected by pairwise distinct keys are disjoint: together
    they hold the elements whose key is among the selected ones. *)
Lemma groups_concat {A} (key : A → string) (l : list A) (names : list string) :
  NoDup names →
  concat (map (λ name, filter (λ x, key x = name) l) names)
    ≡ₚ filter (λ x, key x ∈ names) l.
Proof.
  induction 1 as [|name names Hname Hnames IH]; cbn.
  - induction l as [|x l IHl]; [done|].
    rewrite filter_cons, decide_False by apply not_elem_of_nil. done.
  - rewrite IH, filter_split.
    + erewrite list_filter_iff; [done|]. intros x. cbn. by rewrite elem_of_cons.
    + intros x <- Hx. done.
Qed.

Lemma group_rows_filter (h : heap) gdefs name :
  group_rows (map (λ g, (g, hash (h g))) gdefs) name =
  filter (λ g, hash (h g) = name) gdefs.
Proof.
  unfold group_rows. induction gdefs as [|g gdefs IH]; [done|].
  cbn [map]. rewrite !filter_cons. cbn [snd].
  destruct (decide (hash (h g) = name)); cbn; by rewrite IH.
Qed.

Lemma group_names_spec (h : heap) gdefs :
  let names := group_names (map (λ g, (g, hash (h g))) gdefs) in
  NoDup names ∧ ∀ name, name ∈ names ↔ ∃ g, g ∈ gdefs ∧ hash (h g) = name.
Proof.
  cbn zeta. unfold group_names. split.
  - rewrite merge_sort_Permutation. apply NoDup_remove_dups.
  - intros name. rewrite merge_sort_Permutation, elem_of_remove_dups.
    rewrite <- list_fmap_compose, list_elem_of_fmap. cbn.
    split; intros (g & Hg1 & Hg2); eauto.
Qed.

Lemma merge_rest_foldlM rest : ∀ first w,
  merge_rest first rest w = foldlM call_merge first rest w.
Proof.
  induction rest as [|g rest IH]; intros first w; [done|].
  cbn. unfold bind. destruct (call_merge first g w) as [w1 [e|gdef]]; [done|].
  apply IH.
Qed.

Lemma merge_rest_total rest : ∀ first w,
  ∃ w' gdef, merge_rest first rest w = (w', inr gdef).
Proof.
  induction rest as [|g rest IH]; intros first w; [by eexists _, _|].
  cbn. unfold bind, call_merge. destruct (guide_merge _ _ _) as [h r]. apply IH.
Qed.

Lemma merge_groups_forM grouped : ∀ gdefs w,
  merge_groups grouped gdefs w =
  (let* merged := forM grouped (λ grp,
      match grp.2 with
      | first :: rest => foldlM call_merge first rest
      | [] => raise IndexError
      end) in ret (gdefs ++ merged)) w.
Proof.
  induction grouped as [|[name group] grouped IH]; intros gdefs w.
  - cbn. unfold bind, ret. by rewrite app_nil_r.
  - cbn. destruct group as [|first rest]; [done|].
    unfold bind at 1. rewrite merge_rest_foldlM. unfold bind.
    destruct (foldlM call_merge first rest w) as [w1 [e|gdef]]; [done|].
    rewrite IH. unfold bind.
    destruct (forM grouped _ w1) as [w2 [e|merged]]; [done|].
    unfold ret. by rewrite <- app_assoc.
Qed.

Lemma groupby_names df : (groupby df).*1 = group_names df.
Proof.
  unfold groupby. induction (group_names df) as [|name names IH]; [done|].
  cbn. by rewrite IH.
Qed.

Lemma groupby_groups df :
  (groupby df).*2 = map (group_rows df) (group_names df).
Proof.
  unfold groupby. induction (group_names df) as [|name names IH]; [done|].
  cbn. by rewrite IH.
Qed.

Lemma merge_groups_total grouped :
  Forall (λ grp : string * list loc, grp.2 ≠ []) grouped →
  ∀ gdefs w, ∃ w' merged,
    merge_groups grouped gdefs w = (w', inr merged) ∧
    length merged = (length gdefs + length grouped)%nat.
Proof.
  induction 1 as [|[name group] grouped Hgroup _ IH]; intros gdefs w.
  - eexists _, _. split; [done|]. cbn. lia.
  - cbn in Hgroup. destruct group as [|first rest]; [done|]. cbn.
    destruct (merge_rest_total rest first w) as (w1 & gdef & Hgdef).
    rewrite (bind_step _ _ _ _ _ Hgdef).
    destruct (IH (gdefs ++ [gdef]) w1) as (w' & merged & Hm & Hlen).
    exists w', merged. split; [done|]. rewrite Hlen, length_app. cbn. lia.
Qed.

(** C7. [merge] partitions the guide definitions by equality of their
    hash: the group keys are pairwise distinct, the group of a key holds
    exactly the definitions with that hash (in their input order, never
    empty), so every definition lies in the group of its hash and in no
    other, and the groups together are a rearrangement of the input.
    [merge] always returns, with one definition per group, the left fold
    of the group under the pairwise merge. *)
Theorem merge_partitions gdefs w :
  let hash_of := λ g, hash (objects w g) in
  let grouped := groupby (map (λ g, (g, hash_of g)) gdefs) in
  NoDup (grouped.*1) ∧
  (∀ name group, (name, group) ∈ grouped →
     group ≠ [] ∧ group = filter (λ g, hash_of g = name) gdefs) ∧
  (∀ g, g ∈ gdefs → ∃ group, (hash_of g, group) ∈ grouped ∧ g ∈ group) ∧
  concat (grouped.*2) ≡ₚ gdefs ∧
  merge gdefs w = merge_by_fold gdefs w ∧
  ∃ w' merged,
    merge gdefs w = (w', inr merged) ∧ length merged = length grouped.
Proof.
  intros hash_of grouped.
  destruct (group_names_spec (objects w) gdefs) as [Hnodup Hnames].
  fold hash_of in Hnodup, Hnames.
  set (df := map (λ g, (g, hash_of g)) gdefs) in *.
  assert (Hfst : grouped.*1 = group_names df).
  { apply groupby_names. }
  assert (Hgroup : ∀ name group, (name, group) ∈ grouped →
            name ∈ group_names df ∧
            group = filter (λ g, hash_of g = name) gdefs).
  { intros name group Hin. unfold grouped, groupby in Hin.
    apply list_elem_of_fmap in Hin as (name' & Heq & Hin').
    inversion Heq; subst. split; [done|]. apply group_rows_filter. }
  assert (Hne : ∀ name, name ∈ group_names df →
            filter (λ g, hash_of g = name) gdefs ≠ []).
  { intros name Hin. apply Hnames in Hin as (g & Hg & Hh).
    intros Hnil. assert (g ∈ filter (λ g, hash_of g = name) gdefs) as Hg'
      by (by apply list_elem_of_filter).
    rewrite Hnil in Hg'. by apply elem_of_nil in Hg'. }
  split_and!.
  - by rewrite Hfst.
  - intros name group Hin. apply Hgroup in Hin as [Hin ->]. split; [|done].
    by apply Hne.
  - intros g Hg. exists (group_rows df (hash_of g)). split.
    + unfold grouped, groupby. apply list_elem_of_fmap.
      exists (hash_of g). split; [done|]. apply Hnames. eauto.
    + unfold df, hash_of. rewrite group_rows_filter. by apply list_elem_of_filter.
  - unfold grouped. rewrite groupby_groups.
    rewrite (map_ext _ (λ name, filter (λ g, hash_of g = name) gdefs))
      by (intros name; apply group_rows_filter).
    rewrite (groups_concat hash_of gdefs (group_names df) Hnodup).
    rewrite filter_all; [done|]. intros g Hg. apply Hnames. eauto.
  - unfold merge, merge_by_fold, bind, data_frame.
    rewrite merge_groups_forM. unfold bind.
    by destruct (forM _ _ w) as [w1 [e|merged]].
  - unfold merge, bind, data_frame.
    destruct (merge_groups_total grouped) with (gdefs := @nil loc) (w := w)
      as (w' & merged & Hm & Hlen).
    + apply Forall_forall. intros [name group] Hin.
      apply Hgroup in Hin as [Hin ->]. cbn. by apply Hne.
    + exists w', merged. split; [done|]. by rewrite Hlen.
Qed.

(** ** Framing *)

Lemma framed_ret {A} (a : A) : framed (ret a).
Proof. intros w w' r H. by inversion H. Qed.

Lemma framed_raise {A} e : framed (@raise A e).
Proof. intros w w' r H. by inversion H. Qed.

Lemma framed_bind {A B} (m : M A) (k : A → M B) :
  framed m → (∀ a, framed (k a)) → framed (bind m k).
Proof.
  intros Hm Hk w w' r H. unfold bind in H.
  destruct (m w) as [w1 [e|a]] eqn:E.
  - inversion H; subst. destruct (Hm _ _ _ E) as [Hp Ht]. done.
  - destruct (Hm _ _ _ E) as [Hp Ht]. destruct (Hk _ _ _ _ H) as [Hp' Ht'].
    split; [congruence|by etrans].
Qed.

Lemma framed_get_param key : framed (get_param key).
Proof. intros w w' r H. by apply get_param_inv in H as [-> _]. Qed.

Lemma framed_read l : framed (read l).
Proof. intros w w' r H. by inversion H. Qed.

Lemma framed_write l f : framed (write l f).
Proof. intros w w' r H. by inversion H. Qed.

Lemma framed_log e p h t w :
  params w = p → t = trace w →
  params (log e (mk_world p h t)) = params w ∧
  trace w `prefix_of` trace (log e (mk_world p h t)).
Proof. intros <- ->. split; [done|]. cbn. by apply prefix_app_r. Qed.

Lemma framed_instantiate key : framed (instantiate key).
Proof.
  intros w w' r H. unfold instantiate in H.
  destruct (Registry !! key) as [ctor|]; [|by inversion H].
  destruct (ctor (objects w)) as [h v]. inversion H; subst.
  by apply framed_log.
Qed.

Lemma framed_call_train l sc : framed (call_train l sc).
Proof.
  intros w w' r H. unfold call_train in H.
  destruct (guide_train _ _ _) as [h v]. inversion H; subst. by apply framed_log.
Qed.

Lemma framed_call_merge l g : framed (call_merge l g).
Proof.
  intros w w' r H. unfold call_merge in H.
  destruct (guide_merge _ _ _) as [h v]. inversion H; subst. by apply framed_log.
Qed.

Lemma framed_call_create_geoms plt l : framed (call_create_geoms plt l).
Proof.
  intros w w' r H. unfold call_create_geoms in H.
  destruct (guide_create_geoms _ _ _ _) as [h v]. inversion H; subst.
  by apply framed_log.
Qed.

Lemma framed_call_set_defaults l : framed (call_set_defaults l).
Proof.
  intros w w' r H. unfold call_set_defaults in H. inversion H; subst.
  by apply framed_log.
Qed.

Lemma framed_call_draw l : framed (call_draw l).
Proof.
  intros w w' r H. unfold call_draw in H.
  destruct (guide_draw _ _ _) as [h v]. inversion H; subst. by apply framed_log.
Qed.

Lemma framed_data_frame gdefs : framed (data_frame gdefs).
Proof. intros w w' r H. by inversion H. Qed.

Lemma framed_read_orders gdefs : framed (read_orders gdefs).
Proof. intros w w' r H. by inversion H. Qed.

Create HintDb framed discriminated.
#[local] Hint Resolve framed_ret framed_raise framed_get_param framed_read
  framed_write framed_instantiate framed_call_train framed_call_merge
  framed_call_create_geoms framed_call_set_defaults framed_call_draw
  framed_data_frame framed_read_orders : framed.

Ltac solve_framed :=
  repeat first
    [ progress eauto with framed
    | apply framed_bind; [|intros ?]
    | case_match ].

Lemma framed_get_label plt output : framed (get_label plt output).
Proof. unfold get_label. solve_framed. Qed.

Lemma framed_validate guide : framed (validate guide).
Proof. unfold validate. solve_framed. Qed.

Lemma framed_train_guide plt sc output guide gdefs :
  framed (train_guide plt sc output guide gdefs).
Proof.
  unfold train_guide. pose proof framed_validate. pose proof framed_get_label.
  solve_framed.
Qed.

Lemma framed_train_loop self plt scs : ∀ gdefs,
  framed (train_loop self plt scs gdefs).
Proof.
  pose proof framed_train_guide.
  induction scs as [|sc scs IH]; intros gdefs; cbn [train_loop]; [solve_framed|].
  unfold primary_aes. solve_framed.
Qed.

Lemma framed_merge_rest rest : ∀ first, framed (merge_rest first rest).
Proof. induction rest as [|g rest IH]; intros first; cbn; solve_framed. Qed.

Lemma framed_merge_groups grouped : ∀ gdefs, framed (merge_groups grouped gdefs).
Proof.
  pose proof framed_merge_rest.
  induction grouped as [|[name group] grouped IH]; intros gdefs; cbn; solve_framed.
Qed.

Lemma framed_merge gdefs : framed (merge gdefs).
Proof. unfold merge. pose proof framed_merge_groups. solve_framed. Qed.

Lemma framed_create_geoms_loop plt gdefs : ∀ new_gdefs,
  framed (create_geoms_loop plt gdefs new_gdefs).
Proof. induction gdefs as [|g gdefs IH]; intros new_gdefs; cbn; solve_framed. Qed.

Lemma framed_set_defaults_loop gdefs : framed (set_defaults_loop gdefs).
Proof. induction gdefs as [|g gdefs IH]; cbn; solve_framed. Qed.

Lemma framed_draw_loop gdefs : framed (draw_loop gdefs).
Proof. induction gdefs as [|g gdefs IH]; cbn; solve_framed. Qed.

Lemma framed_draw gdefs : framed (draw gdefs).
Proof.
  unfold draw. pose proof framed_set_defaults_loop. pose proof framed_draw_loop.
  solve_framed.
Qed.

Lemma framed_normalize_orders gdefs : framed (normalize_orders gdefs).
Proof. induction gdefs as [|g gdefs IH]; cbn; solve_framed. Qed.

Lemma framed_take_boxes (gboxes : list Box) idx : framed (take_boxes gboxes idx).
Proof. induction idx as [|i idx IH]; cbn; solve_framed. Qed.

Lemma framed_assemble gboxes gdefs : framed (assemble gboxes gdefs).
Proof.
  unfold assemble. pose proof framed_normalize_orders.
  pose proof (framed_take_boxes gboxes). solve_framed.
Qed.

(** ** Which exceptions a stage can raise *)

Lemma raises_ret {A} P (a : A) : raises_only P (ret a).
Proof. intros w w' e H. discriminate. Qed.

Lemma raises_raise {A} (P : exn → Prop) e : P e → raises_only P (@raise A e).
Proof. intros He w w' e' H. by inversion H; subst. Qed.

Lemma raises_bind {A B} P (m : M A) (k : A → M B) :
  raises_only P m → (∀ a, raises_only P (k a)) → raises_only P (bind m k).
Proof.
  intros Hm Hk w w' e H.
  apply bind_inl in H as [H|(w1 & a & _ & H)]; [by eapply Hm|by eapply Hk].
Qed.

Lemma raises_get_param P key : P (KeyError key) → raises_only P (get_param key).
Proof. intros HP w w' e H. by apply get_param_inv in H as [_ ->]. Qed.

Lemma raises_put_param P key val : raises_only P (put_param key val).
Proof. intros w w' e H. discriminate. Qed.

Lemma raises_read P l : raises_only P (read l).
Proof. intros w w' e H. discriminate. Qed.

Lemma raises_write P l f : raises_only P (write l f).
Proof. intros w w' e H. discriminate. Qed.

Lemma raises_instantiate P key :
  P (GgplotError_unknown_guide (VStr key)) → raises_only P (instantiate key).
Proof.
  intros HP w w' e H. unfold instantiate in H.
  destruct (Registry !! key) as [ctor|]; [|by inversion H; subst].
  by destruct (ctor (objects w)).
Qed.

Lemma raises_call_train P l sc : raises_only P (call_train l sc).
Proof.
  intros w w' e H. unfold call_train in H. by destruct (guide_train _ _ _).
Qed.

Lemma raises_call_merge P l g : raises_only P (call_merge l g).
Proof.
  intros w w' e H. unfold call_merge in H. by destruct (guide_merge _ _ _).
Qed.

Lemma raises_call_create_geoms P plt l : raises_only P (call_create_geoms plt l).
Proof.
  intros w w' e H. unfold call_create_geoms in H.
  by destruct (guide_create_geoms _ _ _ _).
Qed.

Lemma raises_data_frame P gdefs : raises_only P (data_frame gdefs).
Proof. intros w w' e H. discriminate. Qed.

Create HintDb raises discriminated.
#[local] Hint Resolve raises_ret raises_get_param raises_put_param raises_read
  raises_write raises_instantiate raises_call_train raises_call_merge
  raises_call_create_geoms raises_data_frame : raises.

Ltac solve_raises :=
  repeat first
    [ progress eauto with raises
    | apply raises_bind; [|intros ?]
    | apply raises_raise; discriminate
    | case_match ].

(** The stages before [assemble] never raise the order error. *)
Lemma set_legend_defaults_raises : raises_only not_order_error set_legend_defaults.
Proof.
  assert (∀ key, not_order_error (KeyError key)) by (intros key; discriminate).
  unfold set_legend_defaults, set_if_none. solve_raises.
Qed.

Lemma train_loop_raises self plt scs : ∀ gdefs,
  raises_only not_order_error (train_loop self plt scs gdefs).
Proof.
  assert (∀ key, not_order_error (KeyError key)) by (intros key; discriminate).
  assert (∀ g, not_order_error (GgplotError_unknown_guide g)) by (intros g; discriminate).
  induction scs as [|sc scs IH]; intros gdefs; cbn [train_loop]; [solve_raises|].
  unfold primary_aes, train_guide, validate, get_label. solve_raises.
Qed.

Lemma merge_raises gdefs : raises_only not_order_error (merge gdefs).
Proof.
  unfold merge.
  assert (Hrest : ∀ rest first, raises_only not_order_error (merge_rest first rest)).
  { induction rest as [|g rest IH]; intros first; cbn; solve_raises. }
  assert (Hgroups : ∀ grouped gdefs,
            raises_only not_order_error (merge_groups grouped gdefs)).
  { induction grouped as [|[name group] grouped IH]; intros acc; cbn; solve_raises. }
  solve_raises.
Qed.

Lemma create_geoms_raises gdefs plt :
  raises_only not_order_error (create_geoms gdefs plt).
Proof.
  unfold create_geoms. generalize (@nil loc).
  induction gdefs as [|g gdefs IH]; intros new_gdefs; cbn; solve_raises.
Qed.

(** ** [draw] *)

Lemma set_defaults_loop_ok gdefs : ∀ w,
  ∃ w', set_defaults_loop gdefs w = (w', inr tt) ∧
        params w' = params w ∧
        trace w' = trace w ++ map EvSetDefaults gdefs.
Proof.
  induction gdefs as [|g gdefs IH]; intros w; cbn.
  - exists w. by rewrite app_nil_r.
  - unfold bind, call_set_defaults.
    destruct (IH (log (EvSetDefaults g)
                    (mk_world (params w)
                       (guide_set_defaults (objects w) (params w) g) (trace w))))
      as (w' & -> & Hp & Ht).
    exists w'. split_and!; [done|done|]. rewrite Ht. cbn. by rewrite <- app_assoc.
Qed.

Lemma draw_loop_ok gdefs : ∀ w,
  ∃ w' gboxes, draw_loop gdefs w = (w', inr gboxes) ∧
        length gboxes = length gdefs ∧
        params w' = params w ∧
        trace w' = trace w ++ map EvDraw gdefs.
Proof.
  induction gdefs as [|g gdefs IH]; intros w; cbn.
  - exists w, []. by rewrite app_nil_r.
  - unfold bind, call_draw. destruct (guide_draw _ _ _) as [h b].
    destruct (IH (log (EvDraw g) (mk_world (params w) h (trace w))))
      as (w' & bs & -> & Hlen & Hp & Ht).
    exists w', (b :: bs). cbn. split_and!; [done|by rewrite Hlen|done|].
    rewrite Ht. cbn. by rewrite <- app_assoc.
Qed.

(** [draw] always returns: one box per definition, after a call of
    [_set_defaults] and then a call of [draw] on every definition. *)
Lemma draw_ok gdefs w :
  ∃ w' gboxes, draw gdefs w = (w', inr gboxes) ∧
        length gboxes = length gdefs ∧
        params w' = params w ∧
        trace w' = trace w ++ map EvSetDefaults gdefs ++ map EvDraw gdefs.
Proof.
  unfold draw. destruct (set_defaults_loop_ok gdefs w) as (w1 & H1 & Hp1 & Ht1).
  rewrite (bind_step _ _ _ _ _ H1).
  destruct (draw_loop_ok gdefs w1) as (w' & bs & H2 & Hlen & Hp2 & Ht2).
  exists w', bs. split_and!; [done|done|congruence|].
  by rewrite Ht2, Ht1, <- app_assoc.
Qed.

(** ** [build]: the legend options *)

Lemma set_if_none_eq key val w cur :
  params w !! key = Some cur →
  set_if_none key val w =
    (mk_world (<[key := or_default cur val]> (params w)) (objects w) (trace w),
     inr tt).
Proof.
  intros H. unfold set_if_none, bind, get_param, or_default. rewrite H.
  destruct (is_None cur); [done|]. rewrite insert_id by done. by destruct w.
Qed.

Lemma get_param_eq key w v :
  params w !! key = Some v → get_param key w = (w, inr v).
Proof. unfold get_param. by intros ->. Qed.

Lemma or_default_set cur val : cur ≠ VNone → or_default cur val = cur.
Proof. by destruct cur. Qed.

Lemma or_default_twice cur val : or_default (or_default cur val) val = or_default cur val.
Proof. by destruct cur, val. Qed.

(** With the seven options present in the theme, the first part of
    [build] succeeds and leaves each legend option at its old value when
    it had one, and at its default otherwise. *)
Lemma set_legend_defaults_spec w box size width height position dir just :
  params w !! "legend_box" = Some box →
  params w !! "legend_key_size" = Some size →
  params w !! "legend_key_width" = Some width →
  params w !! "legend_key_height" = Some height →
  params w !! "legend_position" = Some position →
  params w !! "legend_direction" = Some dir →
  params w !! "legend_box_just" = Some just →
  ∃ w', set_legend_defaults w = (w', inr tt) ∧
    objects w' = objects w ∧ trace w' = trace w ∧
    let position' := or_default position (VStr "right") in
    params w' !! "legend_box" = Some (or_default box (VStr "vertical")) ∧
    params w' !! "legend_key_size" = Some size ∧
    params w' !! "legend_key_width" = Some (or_default width size) ∧
    params w' !! "legend_key_height" = Some (or_default height size) ∧
    params w' !! "legend_position" = Some position' ∧
    params w' !! "legend_direction" =
      Some (or_default dir (if in_top_bottom position'
                            then VStr "horizontal" else VStr "vertical")) ∧
    params w' !! "legend_box_just" =
      Some (or_default just (if in_left_right position'
                             then VStr "left" else VStr "center")) ∧
    ∀ key, key ∉ legend_options → params w' !! key = params w !! key.
Proof.
  intros Hbox Hsize Hwidth Hheight Hpos Hdir Hjust.
  unfold set_legend_defaults.
  erewrite bind_step by (by apply set_if_none_eq).
  erewrite bind_step by (apply get_param_eq; cbn; by simplify_map_eq).
  erewrite bind_step by (apply set_if_none_eq; cbn; by simplify_map_eq).
  erewrite bind_step by (apply get_param_eq; cbn; by simplify_map_eq).
  erewrite bind_step by (apply set_if_none_eq; cbn; by simplify_map_eq).
  erewrite bind_step by (apply set_if_none_eq; cbn; by simplify_map_eq).
  erewrite bind_step by (apply set_if_none_eq; cbn; by simplify_map_eq).
  erewrite bind_step by (apply get_param_eq; cbn; by simplify_map_eq).
  cbn [params objects trace]. rewrite or_default_twice.
  set (position' := or_default position (VStr "right")).
  assert (Hother : ∀ (key : string) (m : gmap string value) v1 v2 v3 v4 v5 v6 v7,
    key ∉ legend_options →
    <["legend_box_just" := v1]> (<["legend_direction" := v2]>
      (<["legend_position" := v3]> (<["legend_box" := v4]>
        (<["legend_key_height" := v5]> (<["legend_key_width" := v6]>
          (<["legend_box" := v7]> m)))))) !! key = m !! key).
  { intros key m v1 v2 v3 v4 v5 v6 v7 Hkey. unfold legend_options in Hkey.
    rewrite !not_elem_of_cons in Hkey.
    destruct Hkey as (? & ? & ? & ? & ? & ? & _).
    by rewrite !lookup_insert_ne by done. }
  destruct (in_top_bottom position'), (in_left_right position').
  all: erewrite bind_step by (apply set_if_none_eq; cbn; by simplify_map_eq).
  all: erewrite set_if_none_eq by (cbn; by simplify_map_eq).
  all: eexists; split; [done|]; cbn [params objects trace].
  all: split_and!; try done; try (by simplify_map_eq).
  all: intros key Hkey; by apply Hother.
Qed.

Lemma theme_only_bind {A B} (m : M A) (k : A → M B) :
  theme_only m → (∀ a, theme_only (k a)) → theme_only (bind m k).
Proof.
  intros Hm Hk w w' r H. unfold bind in H.
  destruct (m w) as [w1 [e|a]] eqn:E.
  - inversion H; subst. by apply (Hm _ _ _ E).
  - destruct (Hm _ _ _ E) as [<- <-]. by apply (Hk _ _ _ _ H).
Qed.

Lemma theme_only_set_if_none key val : theme_only (set_if_none key val).
Proof.
  intros w w' r H. unfold set_if_none, bind, get_param in H.
  destruct (params w !! key) as [cur|]; [|by inversion H].
  destruct (is_None cur); by inversion H.
Qed.

Lemma theme_only_get_param key : theme_only (get_param key).
Proof. intros w w' r H. by apply get_param_inv in H as [-> _]. Qed.

Lemma theme_only_set_legend_defaults : theme_only set_legend_defaults.
Proof.
  unfold set_legend_defaults.
  repeat first [ apply theme_only_set_if_none | apply theme_only_get_param
               | apply theme_only_bind; [|intros ?] | case_match ].
Qed.

(** After the legend options, [build] no longer touches the theme. *)
Lemma build_after_defaults self plt w w1 w' r :
  set_legend_defaults w = (w1, inr tt) →
  build self plt w = (w', r) →
  params w' = params w1 ∧ trace w1 `prefix_of` trace w'.
Proof.
  intros H1 H. unfold build in H. rewrite (bind_step _ _ _ _ _ H1) in H.
  revert H. generalize r. generalize w'. generalize w1.
  pose proof (framed_train_loop self plt (scales plt) []).
  pose proof framed_merge. pose proof framed_draw. pose proof framed_assemble.
  pose proof (λ gdefs, framed_create_geoms_loop plt gdefs []).
  unfold train, create_geoms.
  match goal with |- ∀ w1 w' r, ?m w1 = (w', r) → _ => change (framed m) end.
  solve_framed.
Qed.

(** C9. For a plot without scales, [build] returns [None]; the guide
    objects and the log are untouched, and each of the legend options of
    the theme is at its old value when it had one and at its default
    otherwise; the other parameters are unchanged. *)
Theorem build_empty_scales self plt w box size width height position dir just :
  scales plt = [] →
  params w !! "legend_box" = Some box →
  params w !! "legend_key_size" = Some size →
  params w !! "legend_key_width" = Some width →
  params w !! "legend_key_height" = Some height →
  params w !! "legend_position" = Some position →
  params w !! "legend_direction" = Some dir →
  params w !! "legend_box_just" = Some just →
  ∃ w', build self plt w = (w', inr None) ∧
    objects w' = objects w ∧ trace w' = trace w ∧
    let position' := or_default position (VStr "right") in
    params w' !! "legend_box" = Some (or_default box (VStr "vertical")) ∧
    params w' !! "legend_key_width" = Some (or_default width size) ∧
    params w' !! "legend_key_height" = Some (or_default height size) ∧
    params w' !! "legend_position" = Some position' ∧
    params w' !! "legend_direction" =
      Some (or_default dir (if in_top_bottom position'
                            then VStr "horizontal" else VStr "vertical")) ∧
    params w' !! "legend_box_just" =
      Some (or_default just (if in_left_right position'
                             then VStr "left" else VStr "center")) ∧
    ∀ key, key ∉ legend_options → params w' !! key = params w !! key.
Proof.
  intros Hscales Hbox Hsize Hwidth Hheight Hpos Hdir Hjust.
  destruct (set_legend_defaults_spec w _ _ _ _ _ _ _
              Hbox Hsize Hwidth Hheight Hpos Hdir Hjust)
    as (w' & Hset & Hobj & Htr & H1 & _ & H2 & H3 & H4 & H5 & H6 & H7).
  exists w'. split_and!; try done.
  unfold build. rewrite (bind_step _ _ _ _ _ Hset).
  unfold train. rewrite Hscales. done.
Qed.

(** C8. With [legend_position] at ['bottom'] and [legend_direction] and
    [legend_box_just] unset, whatever [build] returns or raises, the theme
    then has [legend_direction] at ['horizontal'] and [legend_box_just] at
    ['center'], and every parameter that had a value keeps it. *)
Theorem build_bottom self plt w w' r box size width height :
  params w !! "legend_box" = Some box →
  params w !! "legend_key_size" = Some size →
  params w !! "legend_key_width" = Some width →
  params w !! "legend_key_height" = Some height →
  params w !! "legend_position" = Some (VStr "bottom") →
  params w !! "legend_direction" = Some VNone →
  params w !! "legend_box_just" = Some VNone →
  build self plt w = (w', r) →
  params w' !! "legend_direction" = Some (VStr "horizontal") ∧
  params w' !! "legend_box_just" = Some (VStr "center") ∧
  ∀ key v, params w !! key = Some v → v ≠ VNone → params w' !! key = Some v.
Proof.
  intros Hbox Hsize Hwidth Hheight Hpos Hdir Hjust Hbuild.
  destruct (set_legend_defaults_spec w _ _ _ _ _ _ _
              Hbox Hsize Hwidth Hheight Hpos Hdir Hjust)
    as (w1 & Hset & Hobj & Htr & H1 & _ & H2 & H3 & H4 & H5 & H6 & H7).
  destruct (build_after_defaults _ _ _ _ _ _ Hset Hbuild) as [-> _].
  split_and!; [done|done|].
  intros key v Hkey Hv.
  destruct (decide (key ∈ legend_options)) as [Hin|Hout].
  - unfold legend_options in Hin. rewrite !elem_of_cons, elem_of_nil in Hin.
    destruct Hin as [->|[->|[->|[->|[->|[->|[]]]]]]].
    + rewrite H1. rewrite Hbox in Hkey. inversion Hkey; subst.
      by rewrite or_default_set.
    + rewrite H2. rewrite Hwidth in Hkey. inversion Hkey; subst.
      by rewrite or_default_set.
    + rewrite H3. rewrite Hheight in Hkey. inversion Hkey; subst.
      by rewrite or_default_set.
    + rewrite H4. rewrite Hpos in Hkey. by inversion Hkey; subst.
    + rewrite Hdir in Hkey. by inversion Hkey; subst.
    + rewrite Hjust in Hkey. by inversion Hkey; subst.
  - by rewrite H7.
Qed.

(** C3 (as amended). [assemble] raises the order error whenever one of
    the guide definitions it is given has an order outside 0..99, and so
    does [build] when such a definition is left after [train], [merge] and
    [create_geoms].  The error comes from the first loop of [assemble],
    before the boxes are sorted and packed.  In [build] this happens
    after the earlier stages: when [build] raises the order error, [draw]
    has returned a box for every definition that was left after
    [create_geoms], and only then [assemble] raised. *)
Theorem order_error_after_draw :
  (∀ gboxes gdefs w l,
     l ∈ gdefs → ¬ (0 ≤ order (objects w l) ≤ 99) →
     ∃ w', assemble gboxes gdefs w = (w', inl order_error)) ∧
  (∀ gboxes gdefs w w',
     assemble gboxes gdefs w = (w', inl order_error) →
     normalize_orders gdefs w = (w', inl order_error)) ∧
  (∀ self plt w w0 w1 w2 w3 w4 trained merged gdefs gboxes l,
     set_legend_defaults w = (w0, inr tt) →
     train self plt w0 = (w1, inr trained) → trained ≠ [] →
     merge trained w1 = (w2, inr merged) →
     create_geoms merged plt w2 = (w3, inr gdefs) →
     draw gdefs w3 = (w4, inr gboxes) →
     l ∈ gdefs → ¬ (0 ≤ order (objects w4 l) ≤ 99) →
     ∃ w', build self plt w = (w', inl order_error)) ∧
  (∀ self plt w w',
     build self plt w = (w', inl order_error) →
     ∃ gdefs gboxes w1 w2,
       gdefs ≠ [] ∧ length gboxes = length gdefs ∧
       draw gdefs w1 = (w2, inr gboxes) ∧
       assemble gboxes gdefs w2 = (w', inl order_error) ∧
       trace w `prefix_of` trace w1 ∧
       trace w' = trace w1 ++ map EvSetDefaults gdefs ++ map EvDraw gdefs).
Proof.
  assert (Hassemble : ∀ gboxes gdefs w l,
     l ∈ gdefs → ¬ (0 ≤ order (objects w l) ≤ 99) →
     ∃ w', assemble gboxes gdefs w = (w', inl order_error)).
  { intros gboxes gdefs w l Hl Hbad.
    destruct (normalize_orders_bad gdefs w l Hl Hbad) as [w' H].
    exists w'. unfold assemble. by rewrite (bind_fail _ _ _ _ _ H). }
  split_and!.
  - done.
  - apply assemble_order_error.
  - intros self plt w w0 w1 w2 w3 w4 trained merged gdefs gboxes l
      Hset Htrain Htrained Hmerge Hgeoms Hdraw Hl Hbad.
    destruct (Hassemble gboxes gdefs w4 l Hl Hbad) as [w' H].
    exists w'. unfold build.
    rewrite (bind_step _ _ _ _ _ Hset), (bind_step _ _ _ _ _ Htrain).
    destruct trained as [|g0 trained]; [done|].
    rewrite (bind_step _ _ _ _ _ Hmerge), (bind_step _ _ _ _ _ Hgeoms).
    destruct gdefs as [|g gdefs]; [by apply elem_of_nil in Hl|].
    by rewrite (bind_step _ _ _ _ _ Hdraw), (bind_fail _ _ _ _ _ H).
  - intros self plt w w' H. unfold build in H.
    apply bind_inl in H as [H|(w0 & [] & Hset & H)].
    { by apply set_legend_defaults_raises in H. }
    apply bind_inl in H as [H|(wt & gdefs0 & Htrain & H)].
    { by apply train_loop_raises in H. }
    destruct gdefs0 as [|g0 gdefs0]; [discriminate|].
    apply bind_inl in H as [H|(wm & gdefs1 & Hmerge & H)].
    { by apply merge_raises in H. }
    apply bind_inl in H as [H|(wc & gdefs & Hgeoms & H)].
    { by apply create_geoms_raises in H. }
    destruct gdefs as [|g gdefs]; [discriminate|].
    destruct (draw_ok (g :: gdefs) wc) as (w2 & gboxes & Hdraw & Hlen & _ & Htr).
    rewrite (bind_step _ _ _ _ _ Hdraw) in H.
    apply bind_inl in H as [H|(w3 & bigbox & _ & H)]; [|discriminate].
    exists (g :: gdefs), gboxes, wc, w2. split_and!; try done.
    + destruct (framed_train_loop _ _ _ _ _ _ _ Htrain) as [_ T1].
      destruct (framed_merge _ _ _ _ Hmerge) as [_ T2].
      destruct (framed_create_geoms_loop _ _ _ _ _ _ Hgeoms) as [_ T3].
      destruct (theme_only_set_legend_defaults _ _ _ Hset) as [_ T0].
      rewrite <- T0. by repeat (etrans; [eassumption|]).
    + apply assemble_order_error in H.
      apply normalize_orders_raise in H as (_ & i & gdef & _ & Hrun & _).
      apply normalize_orders_ok in Hrun as (_ & -> & _). done.
Qed.

(** * Further properties *)

(** ** [assemble]: when the first loop succeeds *)

(** The first loop runs to its end exactly when every order lies in
    0..99 and no definition of order 0 is listed twice. *)
Lemma normalize_orders_total gdefs : ∀ w,
  (∀ l, l ∈ gdefs → 0 ≤ order (objects w l) ≤ 99) →
  (∀ (i j : nat) l, gdefs !! i = Some l → gdefs !! j = Some l →
     order (objects w l) = 0 → i = j) →
  ∃ w', normalize_orders gdefs w = (w', inr tt).
Proof.
  induction gdefs as [|gdef gdefs IH]; intros w Hrange Hzero; [by eexists|].
  cbn [normalize_orders]. unfold bind at 1. cbn [read].
  destruct (order (objects w gdef) =? 0) eqn:E0.
  - apply Z.eqb_eq in E0. unfold bind at 1. cbn [write].
    assert (Hfresh : gdef ∉ gdefs).
    { intros Hin. apply list_elem_of_lookup in Hin as [j Hj].
      by specialize (Hzero 0%nat (S j) gdef eq_refl Hj E0). }
    apply IH; cbn.
    + intros l Hl. rewrite upd_ne by (by intros ->). apply Hrange. by right.
    + intros i j l Hi Hj. rewrite upd_ne.
      * intros H0. by specialize (Hzero (S i) (S j) l Hi Hj H0) as [= ->].
      * intros ->. apply Hfresh. by eapply list_elem_of_lookup_2.
  - destruct (Hrange gdef) as [Hlo Hhi]; [by left|].
    apply Z.leb_le in Hlo, Hhi. rewrite Hlo, Hhi. cbn. apply IH.
    + intros l Hl. apply Hrange. by right.
    + intros i j l Hi Hj H0. by specialize (Hzero (S i) (S j) l Hi Hj H0) as [= ->].
Qed.

Lemma normalize_orders_zero_once gdefs : ∀ w w',
  normalize_orders gdefs w = (w', inr tt) →
  ∀ (i j : nat) l, gdefs !! i = Some l → gdefs !! j = Some l →
    order (objects w l) = 0 → i = j.
Proof.
  induction gdefs as [|gdef gdefs IH]; intros w w' H i j l Hi Hj H0.
  - by rewrite lookup_nil in Hi.
  - cbn [normalize_orders] in H. unfold bind at 1 in H. cbn [read] in H.
    destruct (order (objects w gdef) =? 0) eqn:E0.
    + unfold bind at 1 in H. cbn [write] in H.
      pose proof (normalize_orders_ok _ _ _ H) as (_ & _ & Hin & _).
      assert (Hfresh : gdef ∉ gdefs).
      { intros Hg. destruct (Hin _ Hg) as [Hr _]. cbn in Hr.
        rewrite upd_eq in Hr. cbn in Hr. lia. }
      destruct i as [|i], j as [|j]; [done| | |].
      * cbn in Hi, Hj. inversion Hi; subst. exfalso. apply Hfresh.
        by eapply list_elem_of_lookup_2.
      * cbn in Hi, Hj. inversion Hj; subst. exfalso. apply Hfresh.
        by eapply list_elem_of_lookup_2.
      * cbn in Hi, Hj. f_equal. apply (IH _ _ H i j l Hi Hj). cbn.
        rewrite upd_ne; [done|]. intros ->. apply Hfresh.
        by eapply list_elem_of_lookup_2.
    + apply Z.eqb_neq in E0.
      destruct (negb _) in H; [discriminate|].
      destruct i as [|i], j as [|j]; [done| | |].
      * cbn in Hi. inversion Hi; subst. done.
      * cbn in Hj. inversion Hj; subst. done.
      * cbn in Hi, Hj. f_equal. by apply (IH _ _ H i j l Hi Hj).
Qed.

Lemma take_boxes_total (gboxes : list Box) idx w :
  (∀ i : nat, i ∈ idx → (i < length gboxes)%nat) →
  ∃ bs, take_boxes gboxes idx w = (w, inr bs).
Proof.
  induction idx as [|i idx IH]; intros Hidx; [by eexists|]. cbn.
  destruct (lookup_lt_is_Some_2 gboxes i) as [b ->]; [apply Hidx; by left|].
  destruct IH as [bs Hbs]; [intros j Hj; apply Hidx; by right|].
  exists (b :: bs). by rewrite (bind_step _ _ _ _ _ Hbs).
Qed.

Lemma take_boxes_out_of_range (gboxes : list Box) idx w (i : nat) :
  i ∈ idx → (length gboxes ≤ i)%nat →
  take_boxes gboxes idx w = (w, inl IndexError).
Proof.
  intros Hi Hlen. destruct (take_boxes gboxes idx w) as [w' [e|bs]] eqn:E.
  - apply take_boxes_world in E as Hw. apply take_boxes_inl in E. by subst.
  - apply take_boxes_inr in E. exfalso.
    apply list_elem_of_lookup in Hi as [p Hp].
    destruct (Forall2_lookup_l _ _ _ _ _ E Hp) as (b & _ & Hb).
    apply lookup_lt_Some in Hb. lia.
Qed.

Lemma lookups_seq_take {A} (l : list A) (n : nat) :
  (n ≤ length l)%nat → (l !!.) <$> seq 0 n = Some <$> take n l.
Proof.
  intros Hn. apply list_eq. intros i. rewrite !list_lookup_fmap.
  destruct (decide (i < n)%nat) as [Hi|Hi].
  - rewrite lookup_seq_lt by done. rewrite lookup_take_lt by done. cbn.
    destruct (lookup_lt_is_Some_2 l i) as [x ->]; [lia|done].
  - rewrite lookup_seq_ge by lia. rewrite lookup_take_ge by lia. done.
Qed.

Lemma Forall2_lookups {A} (l : list A) idx bs :
  Forall2 (λ (i : nat) b, l !! i = Some b) idx bs →
  (l !!.) <$> idx = Some <$> bs.
Proof. induction 1 as [|i b idx bs Hi _ IH]; cbn; [done|]. by rewrite Hi, IH. Qed.


(** X1. A second [assemble] on the same guide definitions fails: when a
    run has returned and one of the definitions had order 0, that
    definition now carries order 100, so a further run raises the order
    error, whatever boxes it is given. *)
Theorem assemble_twice gboxes gdefs w w' box l :
  assemble gboxes gdefs w = (w', inr box) →
  l ∈ gdefs → order (objects w l) = 0 →
  ∀ gboxes', ∃ w'', assemble gboxes' gdefs w' = (w'', inl order_error).
Proof.
  intros H Hl H0 gboxes'. apply assemble_inr in H as [H _].
  apply normalize_orders_ok in H as (_ & _ & Hin & _).
  destruct (Hin _ Hl) as [_ Hobj].
  destruct (normalize_orders_bad gdefs w' l Hl) as [w'' Hbad].
  - rewrite Hobj. cbn. rewrite H0. cbn. lia.
  - exists w''. unfold assemble. by rewrite (bind_fail _ _ _ _ _ Hbad).
Qed.

(** X2. A guide definition of order 0 that is listed twice makes
    [assemble] raise the order error: a run that gets past the first
    visit has left 100 on the shared object, which the second visit finds
    out of range. *)
Theorem assemble_repeated_zero gboxes gdefs w (i j : nat) l :
  gdefs !! i = Some l → gdefs !! j = Some l → i ≠ j →
  order (objects w l) = 0 →
  ∃ w', assemble gboxes gdefs w = (w', inl order_error).
Proof.
  intros Hi Hj Hij H0.
  destruct (normalize_orders gdefs w) as [w' [e|[]]] eqn:E.
  - exists w'. pose proof (normalize_orders_raise _ _ _ _ E) as [-> _].
    unfold assemble. by rewrite (bind_fail _ _ _ _ _ E).
  - exfalso. by apply Hij, (normalize_orders_zero_once _ _ _ E i j l).
Qed.

Section Packing.

Hypothesis argsort_ok : ∀ keys, is_argsort keys (argsort keys).

Lemma argsort_indices keys (i : nat) :
  i ∈ argsort keys ↔ (i < length keys)%nat.
Proof.
  destruct (argsort_ok keys) as [Hperm _]. rewrite Hperm, elem_of_seq. lia.
Qed.

(** X3. When [assemble] returns, it was given at least one box per
    guide definition, and the children of the packed box are the boxes of
    the definitions, each exactly once: a rearrangement of the first
    [len(gdefs)] boxes (of all the boxes when there are as many boxes as
    definitions). *)
Theorem assemble_keeps_boxes gboxes gdefs w w' box :
  assemble gboxes gdefs w = (w', inr box) →
  (length gdefs ≤ length gboxes)%nat ∧
  pk_children box ≡ₚ take (length gdefs) gboxes ∧
  (length gboxes = length gdefs → pk_children box ≡ₚ gboxes).
Proof.
  intros H. apply assemble_inr in H as (_ & _ & _ & _ & _ & _ & _ & Hbs).
  set (keys := map (λ gdef, order (objects w' gdef)) gdefs) in *.
  destruct (argsort_ok keys) as [Hperm _].
  assert (Hkeys : length keys = length gdefs) by apply length_map.
  rewrite Hkeys in Hperm.
  assert (Hlen : (length gdefs ≤ length gboxes)%nat).
  { destruct (length gdefs) as [|n] eqn:En; [lia|].
    assert (Hn : n ∈ argsort keys) by (apply argsort_indices; lia).
    apply list_elem_of_lookup in Hn as [p Hp].
    destruct (Forall2_lookup_l _ _ _ _ _ Hbs Hp) as (b & _ & Hb).
    apply lookup_lt_Some in Hb. lia. }
  assert (Hchildren : pk_children box ≡ₚ take (length gdefs) gboxes).
  { apply Forall2_lookups in Hbs.
    assert (Hp : Some <$> pk_children box ≡ₚ Some <$> take (length gdefs) gboxes).
    { rewrite <- Hbs, <- lookups_seq_take by done. by rewrite Hperm. }
    apply Permutation_map_inv in Hp as (l3 & Heq & Hp).
    apply (inj (fmap Some)) in Heq. subst l3. by symmetry. }
  split_and!; [done|done|].
  intros Heq. rewrite Hchildren, <- Heq. by rewrite firstn_all.
Qed.

(** X4. With every order in 0..99, no definition of order 0 listed
    twice and a box for every definition, the outcome of [assemble] is
    decided by [legend_box]: ['vertical'] packs with [VPacker],
    ['horizontal'] with [HPacker], both aligned by [legend_box_just], with
    padding 0 and separation 20; any other value raises the legend-box
    error.  In each case the orders of the definitions have been
    normalised by then. *)
Theorem assemble_packer gboxes gdefs w direction align :
  (∀ l, l ∈ gdefs → 0 ≤ order (objects w l) ≤ 99) →
  (∀ (i j : nat) l, gdefs !! i = Some l → gdefs !! j = Some l →
     order (objects w l) = 0 → i = j) →
  (length gdefs ≤ length gboxes)%nat →
  params w !! "legend_box" = Some direction →
  params w !! "legend_box_just" = Some align →
  ∃ w' children,
    (∀ l, l ∈ gdefs → order (objects w' l) = normalized (order (objects w l))) ∧
    assemble gboxes gdefs w =
      (w', if bool_decide (direction = VStr "vertical")
           then inr (mk_packed VPacker children align 0 20)
           else if bool_decide (direction = VStr "horizontal")
                then inr (mk_packed HPacker children align 0 20)
                else inl legend_box_error).
Proof.
  intros Hrange Hzero Hlen Hdir Halign.
  destruct (normalize_orders_total gdefs w Hrange Hzero) as [w' Hnorm].
  pose proof (normalize_orders_ok _ _ _ Hnorm) as (Hp & _ & Hin & _).
  set (keys := map (λ gdef, order (objects w' gdef)) gdefs).
  destruct (take_boxes_total gboxes (argsort keys) w') as [children Hbs].
  { intros i Hi. apply argsort_indices in Hi. unfold keys in Hi.
    rewrite length_map in Hi. lia. }
  exists w', children. split.
  { intros l Hl. by destruct (Hin _ Hl) as [_ ->]. }
  unfold assemble. rewrite (bind_step _ _ _ _ _ Hnorm).
  unfold bind at 1. cbn [read_orders]. fold keys.
  rewrite (bind_step _ _ _ _ _ Hbs).
  erewrite bind_step by (apply get_param_eq; by rewrite Hp).
  repeat case_bool_decide.
  - unfold bind at 1, ret at 1.
    erewrite bind_step by (apply get_param_eq; by rewrite Hp). done.
  - unfold bind at 1, ret at 1.
    erewrite bind_step by (apply get_param_eq; by rewrite Hp). done.
  - done.
Qed.

(** X5. With every order in 0..99 and no definition of order 0 listed
    twice, but fewer boxes than definitions, [assemble] raises
    [IndexError], and the orders of the definitions have been normalised
    by then. *)
Theorem assemble_short_boxes gboxes gdefs w :
  (∀ l, l ∈ gdefs → 0 ≤ order (objects w l) ≤ 99) →
  (∀ (i j : nat) l, gdefs !! i = Some l → gdefs !! j = Some l →
     order (objects w l) = 0 → i = j) →
  (length gboxes < length gdefs)%nat →
  ∃ w',
    assemble gboxes gdefs w = (w', inl IndexError) ∧
    ∀ l, l ∈ gdefs → order (objects w' l) = normalized (order (objects w l)).
Proof.
  intros Hrange Hzero Hlen.
  destruct (normalize_orders_total gdefs w Hrange Hzero) as [w' Hnorm].
  pose proof (normalize_orders_ok _ _ _ Hnorm) as (_ & _ & Hin & _).
  exists w'. split; [|intros l Hl; by destruct (Hin _ Hl) as [_ ->]].
  unfold assemble. rewrite (bind_step _ _ _ _ _ Hnorm).
  unfold bind at 1. cbn [read_orders].
  set (keys := map (λ gdef, order (objects w' gdef)) gdefs).
  assert (Hi : length gboxes ∈ argsort keys).
  { apply argsort_indices. unfold keys. by rewrite length_map. }
  by rewrite (bind_fail _ _ _ _ _
                (take_boxes_out_of_range gboxes _ w' _ Hi (le_n _))).
Qed.

End Packing.


(** ** [build]: more on the legend options *)

Lemma set_if_none_inv key val w w' r :
  set_if_none key val w = (w', r) →
  match params w !! key with
  | Some cur =>
      w' = mk_world (<[key := or_default cur val]> (params w)) (objects w) (trace w) ∧
      r = inr tt
  | None => w' = w ∧ r = inl (KeyError key)
  end.
Proof.
  destruct (params w !! key) as [cur|] eqn:E.
  - rewrite (set_if_none_eq _ _ _ _ E). by intros [= <- <-].
  - unfold set_if_none, bind, get_param. rewrite E. by intros [= <- <-].
Qed.

(** The first part of [build] succeeds only on a theme that holds the
    seven options. *)
Lemma set_legend_defaults_inr w w' :
  set_legend_defaults w = (w', inr tt) →
  ∀ key, key ∈ "legend_key_size" :: legend_options → is_Some (params w !! key).
Proof.
  unfold set_legend_defaults. intros H.
  apply bind_inr in H as (w1 & [] & H1 & H). apply set_if_none_inv in H1.
  destruct (params w !! "legend_box") as [box|] eqn:Ebox; [|by destruct H1].
  destruct H1 as [-> _].
  apply bind_inr in H as (w2 & size & H2 & H).
  apply get_param_inv in H2 as [-> H2]. cbn in H2.
  rewrite lookup_insert_ne in H2 by done.
  apply bind_inr in H as (w3 & [] & H3 & H). apply set_if_none_inv in H3.
  cbn in H3. rewrite lookup_insert_ne in H3 by done.
  destruct (params w !! "legend_key_width") as [width|] eqn:Ewidth; [|by destruct H3].
  destruct H3 as [-> _].
  apply bind_inr in H as (w4 & size' & H4 & H).
  apply get_param_inv in H4 as [-> _].
  apply bind_inr in H as (w5 & [] & H5 & H). apply set_if_none_inv in H5.
  cbn in H5. rewrite !lookup_insert_ne in H5 by done.
  destruct (params w !! "legend_key_height") as [height|] eqn:Eheight; [|by destruct H5].
  destruct H5 as [-> _].
  apply bind_inr in H as (w6 & [] & H6 & H). apply set_if_none_inv in H6.
  cbn in H6. rewrite !lookup_insert_ne, lookup_insert_eq in H6 by done.
  destruct H6 as [-> _].
  apply bind_inr in H as (w7 & [] & H7 & H). apply set_if_none_inv in H7.
  cbn in H7. rewrite !lookup_insert_ne in H7 by done.
  destruct (params w !! "legend_position") as [position|] eqn:Epos; [|by destruct H7].
  destruct H7 as [-> _].
  apply bind_inr in H as (w8 & position' & H8 & H).
  apply get_param_inv in H8 as [-> _].
  apply bind_inr in H as (w9 & [] & H9 & H).
  assert (is_Some (params w !! "legend_direction")) as [dir Edir].
  { destruct (in_top_bottom position'); apply set_if_none_inv in H9;
      cbn in H9; rewrite !lookup_insert_ne in H9 by done;
      destruct (params w !! "legend_direction"); by destruct H9. }
  assert (params w9 !! "legend_box_just" = params w !! "legend_box_just") as Ejust.
  { destruct (in_top_bottom position'); apply set_if_none_inv in H9;
      cbn in H9; rewrite !lookup_insert_ne, Edir in H9 by done;
      destruct H9 as [-> _]; cbn; by rewrite !lookup_insert_ne by done. }
  assert (is_Some (params w !! "legend_box_just")) as [just Ejust'].
  { destruct (in_left_right position'); apply set_if_none_inv in H;
      rewrite Ejust in H; destruct (params w !! "legend_box_just"); by destruct H. }
  intros key Hkey. unfold legend_options in Hkey.
  rewrite !elem_of_cons, elem_of_nil in Hkey.
  destruct Hkey as [->|[->|[->|[->|[->|[->|[->|[]]]]]]]]; eauto.
Qed.

Lemma set_legend_defaults_inl w w' e :
  set_legend_defaults w = (w', inl e) →
  ∃ key, key ∈ "legend_key_size" :: legend_options ∧ e = KeyError key.
Proof.
  assert (Hs : ∀ key val,
            key ∈ "legend_key_size" :: legend_options →
            raises_only (λ e, ∃ key, key ∈ "legend_key_size" :: legend_options
                                     ∧ e = KeyError key)
                        (set_if_none key val)).
  { intros key val Hkey w0 w0' e0 H0. apply set_if_none_inv in H0.
    destruct (params w0 !! key); destruct H0 as [_ [= ->]]. eauto. }
  assert (Hg : ∀ key,
            key ∈ "legend_key_size" :: legend_options →
            raises_only (λ e, ∃ key, key ∈ "legend_key_size" :: legend_options
                                     ∧ e = KeyError key)
                        (get_param key)).
  { intros key Hkey. apply raises_get_param. eauto. }
  revert w w' e.
  change (raises_only (λ e, ∃ key, key ∈ "legend_key_size" :: legend_options
                                   ∧ e = KeyError key) set_legend_defaults).
  unfold set_legend_defaults.
  repeat first [ apply Hs; unfold legend_options; solve [repeat constructor]
               | apply Hg; unfold legend_options; solve [repeat constructor]
               | apply raises_bind; [|intros ?] | case_match ].
Qed.

(** X6. [build] needs the seven legend options in the theme: when one
    of them is missing, [build] raises [KeyError] for one of these keys
    before any stage of the pipeline has run; no guide object is touched
    and no collaborator is called. *)
Theorem build_missing_option self plt w key :
  key ∈ "legend_key_size" :: legend_options →
  params w !! key = None →
  ∃ w' key',
    build self plt w = (w', inl (KeyError key')) ∧
    key' ∈ "legend_key_size" :: legend_options ∧
    objects w' = objects w ∧ trace w' = trace w.
Proof.
  intros Hkey Hnone.
  destruct (set_legend_defaults w) as [w' [e|[]]] eqn:E.
  - destruct (set_legend_defaults_inl _ _ _ E) as (key' & Hkey' & ->).
    destruct (theme_only_set_legend_defaults _ _ _ E) as [Ho Ht].
    exists w', key'. unfold build. by rewrite (bind_fail _ _ _ _ _ E).
  - destruct (set_legend_defaults_inr _ _ E key Hkey) as [v Hv]. congruence.
Qed.

(** X7. Filling in the legend options is idempotent: once the first
    part of [build] has succeeded, running it again changes nothing. *)
Theorem set_legend_defaults_idempotent w w' :
  set_legend_defaults w = (w', inr tt) →
  set_legend_defaults w' = (w', inr tt).
Proof.
  intros H.
  pose proof (set_legend_defaults_inr _ _ H) as Hkeys.
  assert (∀ key, key ∈ "legend_key_size" :: legend_options →
                 ∃ v, params w !! key = Some v) as Hk
    by (intros key Hkey; by apply Hkeys).
  unfold legend_options in Hk.
  destruct (Hk "legend_box") as [box Hbox]; [repeat constructor|].
  destruct (Hk "legend_key_size") as [size Hsize]; [repeat constructor|].
  destruct (Hk "legend_key_width") as [width Hwidth]; [repeat constructor|].
  destruct (Hk "legend_key_height") as [height Hheight]; [repeat constructor|].
  destruct (Hk "legend_position") as [position Hpos]; [repeat constructor|].
  destruct (Hk "legend_direction") as [dir Hdir]; [repeat constructor|].
  destruct (Hk "legend_box_just") as [just Hjust]; [repeat constructor|].
  destruct (set_legend_defaults_spec w _ _ _ _ _ _ _
              Hbox Hsize Hwidth Hheight Hpos Hdir Hjust)
    as (w1 & Hset & Hobj & Htr & H1 & H2 & H3 & H4 & H5 & H6 & H7 & H8).
  rewrite H in Hset. injection Hset as <-.
  destruct (set_legend_defaults_spec w' _ _ _ _ _ _ _ H1 H2 H3 H4 H5 H6 H7)
    as (w2 & Hset2 & Hobj2 & Htr2 & G1 & G2 & G3 & G4 & G5 & G6 & G7 & G8).
  rewrite Hset2. f_equal.
  assert (Hparams : params w2 = params w').
  { apply map_eq. intros key.
    destruct (decide (key ∈ legend_options)) as [Hin|Hout]; [|by apply G8].
    unfold legend_options in Hin. rewrite !elem_of_cons, elem_of_nil in Hin.
    cbn zeta in *. rewrite !or_default_twice in *.
    destruct Hin as [->|[->|[->|[->|[->|[->|[]]]]]]]; congruence. }
  destruct w2, w'; cbn in *; congruence.
Qed.


(** ** [build]: the stages together *)

(** X8. When the guide of every scale resolves to [None] or [False],
    [build] returns [None] after filling in the legend options: no guide
    object is touched and no collaborator is called. *)
Theorem build_all_skipped self plt w :
  (∀ key, key ∈ "legend_key_size" :: legend_options → is_Some (params w !! key)) →
  (∀ sc, sc ∈ scales plt → skipped self sc = true) →
  ∃ w', build self plt w = (w', inr None) ∧
        set_legend_defaults w = (w', inr tt) ∧
        objects w' = objects w ∧ trace w' = trace w.
Proof.
  intros Hkeys Hskip.
  destruct (set_legend_defaults w) as [w' [e|[]]] eqn:E.
  - destruct (set_legend_defaults_inl _ _ _ E) as (key & Hkey & ->).
    exfalso. clear Hskip. unfold legend_options in *.
    unfold set_legend_defaults in E.
    destruct (Hkeys "legend_box") as [box Hbox]; [repeat constructor|].
    destruct (Hkeys "legend_key_size") as [size Hsize]; [repeat constructor|].
    destruct (Hkeys "legend_key_width") as [width Hwidth]; [repeat constructor|].
    destruct (Hkeys "legend_key_height") as [height Hheight]; [repeat constructor|].
    destruct (Hkeys "legend_position") as [position Hpos]; [repeat constructor|].
    destruct (Hkeys "legend_direction") as [dir Hdir]; [repeat constructor|].
    destruct (Hkeys "legend_box_just") as [just Hjust]; [repeat constructor|].
    destruct (set_legend_defaults_spec w _ _ _ _ _ _ _
                Hbox Hsize Hwidth Hheight Hpos Hdir Hjust) as (w1 & Hset & _).
    unfold set_legend_defaults in Hset. congruence.
  - destruct (theme_only_set_legend_defaults _ _ _ E) as [Ho Ht].
    exists w'. split_and!; try done.
    unfold build. rewrite (bind_step _ _ _ _ _ E).
    unfold train. cbv beta. unfold bind at 1. rewrite train_loop_filter.
    assert (filter (λ sc, skipped self sc = false) (scales plt) = []) as ->.
    { induction (scales plt) as [|sc scs IH]; [done|].
      rewrite filter_cons, decide_False.
      - apply IH. intros sc' Hsc'. apply Hskip. by right.
      - rewrite Hskip by (by left). done. }
    done.
Qed.

(** What a completed [build] that returns a box consisted of. *)
Lemma build_inr_Some self plt w w' bigbox :
  build self plt w = (w', inr (Some bigbox)) →
  ∃ w0 w4 gdefs gboxes,
    set_legend_defaults w = (w0, inr tt) ∧
    params w4 = params w0 ∧
    gdefs ≠ [] ∧ length gboxes = length gdefs ∧
    assemble gboxes gdefs w4 = (w', inr bigbox).
Proof.
  intros H. unfold build in H.
  apply bind_inr in H as (w0 & [] & Hset & H).
  apply bind_inr in H as (w1 & trained & Htrain & H).
  destruct trained as [|g0 trained]; [discriminate|].
  apply bind_inr in H as (w2 & merged & Hmerge & H).
  apply bind_inr in H as (w3 & gdefs & Hgeoms & H).
  destruct gdefs as [|g gdefs]; [discriminate|].
  apply bind_inr in H as (w4 & gboxes & Hdraw & H).
  apply bind_inr in H as (w5 & box & Hassemble & H).
  injection H as -> ->.
  destruct (framed_train_loop _ _ _ _ _ _ _ Htrain) as [P1 _].
  destruct (framed_merge _ _ _ _ Hmerge) as [P2 _].
  destruct (framed_create_geoms_loop _ _ _ _ _ _ Hgeoms) as [P3 _].
  destruct (draw_ok (g :: gdefs) w3) as (w4' & gboxes' & Hdraw' & Hlen & P4 & _).
  rewrite Hdraw in Hdraw'. injection Hdraw' as <- <-.
  exists w0, w4, (g :: gdefs), gboxes. split_and!; try done. congruence.
Qed.

(** X9. The box that [build] returns is packed as the theme says after
    its defaults: with [VPacker] when [legend_box] was unset or
    ['vertical'], with [HPacker] when it was ['horizontal'] (no box is
    returned for any other value), aligned by [legend_box_just] or, when
    that was unset, ['left'] for a legend on the left or right and
    ['center'] otherwise, with padding 0 and separation 20. *)
Theorem build_packs self plt w w' bigbox box position just :
  params w !! "legend_box" = Some box →
  params w !! "legend_position" = Some position →
  params w !! "legend_box_just" = Some just →
  build self plt w = (w', inr (Some bigbox)) →
  (or_default box (VStr "vertical") = VStr "vertical" ∧ pk_packer bigbox = VPacker ∨
   box = VStr "horizontal" ∧ pk_packer bigbox = HPacker) ∧
  pk_align bigbox =
    or_default just (if in_left_right (or_default position (VStr "right"))
                     then VStr "left" else VStr "center") ∧
  pk_pad bigbox = 0 ∧ pk_sep bigbox = 20.
Proof.
  intros Hbox Hpos Hjust H.
  apply build_inr_Some in H as (w0 & w4 & gdefs & gboxes & Hset & Hp & _ & _ & H).
  pose proof (set_legend_defaults_inr _ _ Hset) as Hkeys.
  unfold legend_options in Hkeys.
  destruct (Hkeys "legend_key_size") as [size Hsize]; [repeat constructor|].
  destruct (Hkeys "legend_key_width") as [width Hwidth]; [repeat constructor|].
  destruct (Hkeys "legend_key_height") as [height Hheight]; [repeat constructor|].
  destruct (Hkeys "legend_direction") as [dir Hdir]; [repeat constructor|].
  destruct (set_legend_defaults_spec w _ _ _ _ _ _ _
              Hbox Hsize Hwidth Hheight Hpos Hdir Hjust)
    as (w0' & Hset' & _ & _ & H1 & _ & _ & _ & _ & _ & H7 & _).
  rewrite Hset in Hset'. injection Hset' as <-.
  apply assemble_inr in H as (Hnorm & direction & Hd & Hpack & Halign & Hpad & Hsep & _).
  apply normalize_orders_ok in Hnorm as (Hp' & _).
  rewrite Hp', Hp in Hd, Halign. rewrite H1 in Hd. cbn zeta in H7.
  rewrite H7 in Halign. injection Hd as <-. injection Halign as <-.
  split_and!; try done.
  destruct Hpack as [[Hv ->]|[Hh ->]]; [by left|right].
  split; [|done]. by destruct box.
Qed.


(** ** [train]: one scale *)

Lemma validate_inl guide w w' e :
  validate guide w = (w', inl e) → ∃ g, e = GgplotError_unknown_guide g.
Proof.
  unfold validate. intros H.
  apply bind_inl in H as [H|(w1 & g & _ & H)].
  - destruct guide; try discriminate. unfold instantiate in H.
    destruct (Registry !! _) as [ctor|]; [by destruct (ctor _)|].
    injection H as _ <-. eauto.
  - destruct g; inversion H; eauto.
Qed.

(** X10. The compatibility error of [train] is raised exactly for a
    validated guide whose [available_aes] is a collection that does not
    hold the scale's first aesthetic; it names the class of the guide and
    the aesthetics of the scale, and it is raised right after the
    validation: the guide has not been given a title or a direction and
    its [train] method has not been called. *)
Theorem train_guide_cannot_be_used plt sc output guide gdefs w w' cls aes' :
  train_guide plt sc output guide gdefs w =
    (w', inl (GgplotError_cannot_be_used cls aes')) ↔
  ∃ l aes,
    validate guide w = (w', inr l) ∧
    available_aes (objects w' l) = Some aes ∧ (output ∉ aes) ∧
    cls = class_name (objects w' l) ∧ aes' = aesthetics sc.
Proof.
  unfold train_guide. split.
  - intros H.
    apply bind_inl in H as [H|(w1 & l & Hval & H)].
    { apply validate_inl in H as [g [=]]. }
    apply bind_inl in H as [H|(w2 & g & Hread & H)]; [discriminate|].
    injection Hread as <- <-.
    apply bind_inl in H as [H|(w2 & [] & Hcheck & H)].
    { destruct (available_aes (objects w1 l)) as [aes|] eqn:Eaes; [|discriminate].
      case_bool_decide; [discriminate|]. injection H as <- <- <-.
      exists l, aes. done. }
    exfalso.
    apply bind_inl in H as [H|(w3 & [] & Htitle & H)].
    { destruct (title _); [discriminate|].
      destruct (scale_name sc) as [[|c n]|]; try discriminate;
        (apply bind_inl in H as [H|(? & ? & _ & H)]; [|discriminate]);
        unfold get_label in H; by destruct (labels plt !! output). }
    apply bind_inl in H as [H|(w4 & g & _ & H)]; [discriminate|].
    apply bind_inl in H as [H|(w5 & [] & _ & H)].
    { destruct (is_None _); [|discriminate].
      apply bind_inl in H as [H|(? & ? & _ & H)]; [|discriminate].
      by apply get_param_inv in H as [_ [=]]. }
    apply bind_inl in H as [H|(w6 & r & _ & H)].
    { unfold call_train in H. by destruct (guide_train _ _ _). }
    by destruct r.
  - intros (l & aes & Hval & Haes & Hout & -> & ->).
    rewrite (bind_step _ _ _ _ _ Hval). unfold bind at 1. cbn [read].
    rewrite Haes. rewrite bool_decide_eq_false_2 by done. done.
Qed.

(** X11. What the [train] method of a guide is handed: when the step
    for one scale succeeds, the validated guide has passed the
    compatibility check and has then been given a title if it had none
    (the name of the scale if that is not empty, else the label of the
    plot for the aesthetic) and a direction if it had none (the theme's
    [legend_direction]); nothing else about the guide objects has changed
    by then.  The definition that the method returns, if any, is appended
    to the list. *)
Theorem train_guide_prepares plt sc output guide gdefs w w' out :
  train_guide plt sc output guide gdefs w = (w', inr out) →
  ∃ w1 l (h : heap),
    validate guide w = (w1, inr l) ∧
    (∀ aes, available_aes (objects w1 l) = Some aes → output ∈ aes) ∧
    (∀ l', l' ≠ l → h l' = objects w1 l') ∧
    class_name (h l) = class_name (objects w1 l) ∧
    available_aes (h l) = available_aes (objects w1 l) ∧
    order (h l) = order (objects w1 l) ∧
    hash (h l) = hash (objects w1 l) ∧
    title (h l) =
      match title (objects w1 l) with
      | Some t => Some t
      | None =>
          match scale_name sc with
          | Some (String c n) => Some (String c n)
          | _ => labels plt !! output
          end
      end ∧
    is_Some (title (h l)) ∧
    (if is_None (direction (objects w1 l))
     then params w !! "legend_direction" = Some (direction (h l))
     else direction (h l) = direction (objects w1 l)) ∧
    w' = log (EvTrain l (scale_id sc))
           (mk_world (params w) (guide_train h l sc).1 (trace w1)) ∧
    out = gdefs ++ match (guide_train h l sc).2 with
                   | Some l' => [l']
                   | None => []
                   end.
Proof.
  unfold train_guide. intros H.
  apply bind_inr in H as (w1 & l & Hval & H).
  destruct (framed_validate _ _ _ _ Hval) as [Hp1 _].
  apply bind_inr in H as (w2 & g & Hread & H). injection Hread as <- <-.
  apply bind_inr in H as (w2 & [] & Hcheck & H).
  assert (w2 = w1 ∧ ∀ aes, available_aes (objects w1 l) = Some aes → output ∈ aes)
    as [-> Hcompat].
  { destruct (available_aes (objects w1 l)) as [aes|].
    - case_bool_decide; [|discriminate]. injection Hcheck as <-.
      split; [done|]. by intros ? [= <-].
    - injection Hcheck as <-. done. }
  apply bind_inr in H as (w3 & [] & Htitle & H).
  apply bind_inr in H as (w4 & g & Hread & H). injection Hread as <- <-.
  apply bind_inr in H as (w5 & [] & Hdir & H).
  apply bind_inr in H as (w6 & r & Htrain & H).
  unfold call_train in Htrain.
  destruct (guide_train (objects w5) l sc) as [h' r'] eqn:Egt.
  injection Htrain as <- <-.
  exists w1, l, (objects w5).
  (* the state after the title *)
  assert (Ht : params w3 = params w1 ∧ trace w3 = trace w1 ∧
               (∀ l', l' ≠ l → objects w3 l' = objects w1 l') ∧
               class_name (objects w3 l) = class_name (objects w1 l) ∧
               available_aes (objects w3 l) = available_aes (objects w1 l) ∧
               order (objects w3 l) = order (objects w1 l) ∧
               hash (objects w3 l) = hash (objects w1 l) ∧
               direction (objects w3 l) = direction (objects w1 l) ∧
               title (objects w3 l) =
                 match title (objects w1 l) with
                 | Some t => Some t
                 | None =>
                     match scale_name sc with
                     | Some (String c n) => Some (String c n)
                     | _ => labels plt !! output
                     end
                 end ∧ is_Some (title (objects w3 l))).
  { destruct (title (objects w1 l)) as [t|] eqn:Et.
    - injection Htitle as <-. rewrite Et. split_and!; eauto.
    - destruct (scale_name sc) as [[|c n]|].
      + apply bind_inr in Htitle as (wl & lab & Hlab & Hw).
        unfold get_label in Hlab. destruct (labels plt !! output); [|discriminate].
        injection Hlab as <- <-. injection Hw as <-. cbn.
        rewrite upd_eq. split_and!; eauto. intros l' Hl'. by rewrite upd_ne.
      + injection Htitle as <-. cbn.
        rewrite upd_eq. split_and!; eauto. intros l' Hl'. by rewrite upd_ne.
      + apply bind_inr in Htitle as (wl & lab & Hlab & Hw).
        unfold get_label in Hlab. destruct (labels plt !! output); [|discriminate].
        injection Hlab as <- <-. injection Hw as <-. cbn.
        rewrite upd_eq. split_and!; eauto. intros l' Hl'. by rewrite upd_ne. }
  destruct Ht as (Hp3 & Ht3 & Ho3 & Hc3 & Ha3 & Hor3 & Hh3 & Hd3 & Hti3 & Hsome).
  assert (Hend : ∀ h0 : heap,
            guide_train h0 l sc = (h', r') →
            params w5 = params w → trace w5 = trace w1 →
            w' = log (EvTrain l (scale_id sc))
                   (mk_world (params w) (guide_train h0 l sc).1 (trace w1)) ∧
            out = gdefs ++ match (guide_train h0 l sc).2 with
                           | Some l' => [l']
                           | None => []
                           end).
  { intros h0 -> <- <-. cbn. destruct r'; injection H as <- <-;
      by rewrite ?app_nil_r. }
  destruct (is_None (direction (objects w3 l))) eqn:En.
  - apply bind_inr in Hdir as (wd & d & Hd & Hw).
    apply get_param_inv in Hd as [-> Hd]. injection Hw as <-. cbn in *.
    destruct (Hend _ Egt) as [Hw' Hout]; [congruence..|].
    rewrite upd_eq. cbn. rewrite <- Hd3, En.
    split_and!; try done; try congruence.
    intros l' Hl'. rewrite upd_ne by done. by apply Ho3.
  - injection Hdir as <-.
    destruct (Hend _ Egt) as [Hw' Hout]; [congruence..|].
    rewrite <- Hd3, En. split_and!; try done; try congruence.
Qed.

(** ** [merge]: calls and order *)

Lemma groupby_concat (h : heap) gdefs :
  concat (groupby (map (λ g, (g, hash (h g))) gdefs)).*2 ≡ₚ gdefs.
Proof.
  destruct (group_names_spec h gdefs) as [Hnodup Hnames].
  rewrite groupby_groups.
  rewrite (map_ext _ (λ name, filter (λ g, hash (h g) = name) gdefs))
    by (intros name; apply group_rows_filter).
  rewrite (groups_concat (λ g, hash (h g)) gdefs _ Hnodup).
  rewrite filter_all; [done|]. intros g Hg. apply Hnames. eauto.
Qed.

Lemma groupby_nonempty (h : heap) gdefs :
  Forall (λ grp : string * list loc, grp.2 ≠ [])
         (groupby (map (λ g, (g, hash (h g))) gdefs)).
Proof.
  destruct (group_names_spec h gdefs) as [_ Hnames].
  apply Forall_forall. intros [name group] Hin. unfold groupby in Hin.
  apply list_elem_of_fmap in Hin as (name' & [= -> ->] & Hin).
  apply Hnames in Hin as (g & Hg & Hh). rewrite group_rows_filter. cbn.
  intros Hnil.
  assert (g ∈ filter (λ g, hash (h g) = name') gdefs) as Hg'
    by (by apply list_elem_of_filter).
  rewrite Hnil in Hg'. by apply elem_of_nil in Hg'.
Qed.

Lemma merge_rest_calls rest : ∀ first w w' gdef,
  merge_rest first rest w = (w', inr gdef) →
  ∃ evs, trace w' = trace w ++ evs ∧ length evs = length rest ∧
         (∀ e, e ∈ evs → ∃ a b, e = EvMerge a b ∧ b ∈ rest).
Proof.
  induction rest as [|g rest IH]; intros first w w' gdef H.
  - injection H as <- <-. exists []. split_and!; [by rewrite app_nil_r|done|].
    intros e He. by apply elem_of_nil in He.
  - cbn in H. apply bind_inr in H as (w1 & gdef1 & H1 & H).
    unfold call_merge in H1. destruct (guide_merge _ _ _) as [h r].
    injection H1 as <- <-. apply IH in H as (evs & Ht & Hlen & Hevs). cbn in Ht.
    exists (EvMerge first g :: evs). split_and!.
    + by rewrite Ht, <- app_assoc.
    + cbn. by rewrite Hlen.
    + intros e He. apply elem_of_cons in He as [->|He].
      * exists first, g. split; [done|by left].
      * destruct (Hevs e He) as (a & b & -> & Hb). exists a, b. split; [done|by right].
Qed.

Lemma merge_groups_calls grouped : ∀ gdefs w w' merged,
  merge_groups grouped gdefs w = (w', inr merged) →
  ∃ evs, trace w' = trace w ++ evs ∧
         (length evs + length grouped = length (concat grouped.*2))%nat ∧
         (∀ e, e ∈ evs → ∃ a b, e = EvMerge a b ∧ b ∈ concat grouped.*2).
Proof.
  induction grouped as [|[name group] grouped IH]; intros gdefs w w' merged H.
  - injection H as <- <-. exists []. split_and!; [by rewrite app_nil_r|done|].
    intros e He. by apply elem_of_nil in He.
  - cbn in H. destruct group as [|first rest]; [discriminate|].
    apply bind_inr in H as (w1 & gdef & H1 & H).
    apply merge_rest_calls in H1 as (evs1 & Ht1 & Hlen1 & Hevs1).
    apply IH in H as (evs2 & Ht2 & Hlen2 & Hevs2).
    exists (evs1 ++ evs2). split_and!.
    + by rewrite Ht2, Ht1, <- app_assoc.
    + cbn. rewrite !length_app. cbn. lia.
    + intros e He. cbn. apply elem_of_app in He as [He|He].
      * destruct (Hevs1 e He) as (a & b & -> & Hb). exists a, b.
        split; [done|]. right. apply elem_of_app. by left.
      * destruct (Hevs2 e He) as (a & b & -> & Hb). exists a, b.
        split; [done|]. right. apply elem_of_app. by right.
Qed.

(** X12. [merge] calls the pairwise merge of the guides once for every
    definition beyond the first of its group: the number of calls plus
    the number of definitions returned is the number of definitions given,
    each call has one of the given definitions as its second argument,
    and the theme parameters are left alone. *)
Theorem merge_calls gdefs w w' merged :
  merge gdefs w = (w', inr merged) →
  ∃ evs,
    trace w' = trace w ++ evs ∧
    (length evs + length merged = length gdefs)%nat ∧
    (∀ e, e ∈ evs → ∃ a b, e = EvMerge a b ∧ b ∈ gdefs) ∧
    params w' = params w.
Proof.
  intros H. destruct (framed_merge _ _ _ _ H) as [Hp _].
  unfold merge, bind, data_frame in H.
  set (grouped := groupby (map (λ g, (g, hash (objects w g))) gdefs)) in *.
  pose proof (groupby_concat (objects w) gdefs) as Hperm. fold grouped in Hperm.
  destruct (merge_groups_total grouped (groupby_nonempty (objects w) gdefs) [] w)
    as (w'' & merged' & Hm & Hlen).
  rewrite H in Hm. injection Hm as <- <-.
  apply merge_groups_calls in H as (evs & Ht & Hcount & Hevs).
  exists evs. split_and!; [done| | |done].
  - rewrite Hlen. cbn. by rewrite <- (Permutation_length Hperm).
  - intros e He. destruct (Hevs e He) as (a & b & -> & Hb).
    exists a, b. split; [done|]. by rewrite <- Hperm.
Qed.

Lemma filter_none {A} (P : A → Prop) `{∀ x, Decision (P x)} (l : list A) :
  (∀ x, x ∈ l → ¬ P x) → filter P l = [].
Proof.
  induction l as [|x l IH]; intros Hl; [done|].
  rewrite filter_cons, decide_False by (apply Hl; left).
  apply IH. intros y Hy. apply Hl. by right.
Qed.

Lemma filter_key_NoDup {A} (f : A → string) (l : list A) y :
  NoDup (f <$> l) → (length (filter (λ x, f x = y) l) ≤ 1)%nat.
Proof.
  induction l as [|x l IH]; intros Hnd; [cbn; lia|].
  cbn in Hnd. apply NoDup_cons in Hnd as [Hx Hnd].
  rewrite filter_cons. destruct (decide (f x = y)) as [<-|Hne]; [|by apply IH].
  rewrite filter_none; [cbn; lia|].
  intros z Hz Hfz. apply Hx. rewrite <- Hfz. apply list_elem_of_fmap. eauto.
Qed.

Lemma merge_groups_singletons grouped : ∀ gdefs w,
  Forall (λ grp : string * list loc, length grp.2 = 1%nat) grouped →
  merge_groups grouped gdefs w = (w, inr (gdefs ++ concat grouped.*2)).
Proof.
  induction grouped as [|[name group] grouped IH]; intros gdefs w Hall.
  - cbn. unfold ret. by rewrite app_nil_r.
  - apply Forall_cons in Hall as [Hgroup Hall]. cbn in Hgroup.
    destruct group as [|first [|??]]; try discriminate. cbn.
    unfold bind, ret. rewrite IH by done. by rewrite <- app_assoc.
Qed.

(** X13. On guide definitions with pairwise distinct hashes [merge]
    merges nothing: it returns the same definitions, rearranged in
    increasing order of their hash, without calling the pairwise merge
    and without any change of state. *)
Theorem merge_distinct gdefs w :
  NoDup ((λ g, hash (objects w g)) <$> gdefs) →
  ∃ merged,
    merge gdefs w = (w, inr merged) ∧
    merged ≡ₚ gdefs ∧
    Sorted String.le ((λ g, hash (objects w g)) <$> merged).
Proof.
  intros Hnd.
  set (hash_of := λ g, hash (objects w g)) in *.
  set (df := map (λ g, (g, hash_of g)) gdefs).
  assert (Hsingle : Forall (λ grp : string * list loc,
                              length grp.2 = 1%nat ∧
                              ∀ g, g ∈ grp.2 → hash_of g = grp.1)
                           (groupby df)).
  { pose proof (groupby_nonempty (objects w) gdefs) as Hne.
    fold hash_of in Hne. fold df in Hne.
    rewrite Forall_forall in Hne. apply Forall_forall. intros [name group] Hin.
    specialize (Hne _ Hin). cbn in Hne. unfold groupby in Hin.
    apply list_elem_of_fmap in Hin as (name' & [= -> ->] & Hin).
    unfold df, hash_of in *. rewrite group_rows_filter in *. cbn. split.
    - pose proof (filter_key_NoDup (λ g, hash (objects w g)) gdefs name' Hnd).
      destruct (filter _ gdefs); [done|cbn in *; lia].
    - intros g Hg. by apply list_elem_of_filter in Hg as [Hg _]. }
  exists (concat (groupby df).*2). split_and!.
  - unfold merge, bind, data_frame. fold hash_of. fold df.
    rewrite merge_groups_singletons; [done|].
    eapply Forall_impl; [exact Hsingle|]. by intros grp [? _].
  - apply (groupby_concat (objects w) gdefs).
  - assert (hash_of <$> concat (groupby df).*2 = group_names df) as ->.
    { rewrite <- groupby_names. induction Hsingle as [|[name group] grouped [Hlen Hh] _ IH];
        [done|].
      cbn in *. destruct group as [|g [|??]]; try discriminate. cbn.
      rewrite IH. f_equal. apply Hh. by left. }
    unfold group_names. apply Sorted_merge_sort. apply _.
Qed.

(** ** [create_geoms] and [draw] *)

Lemma create_geoms_loop_acc plt gdefs : ∀ new_gdefs w,
  create_geoms_loop plt gdefs new_gdefs w =
  (let* created := create_geoms_loop plt gdefs [] in
   ret (new_gdefs ++ created)) w.
Proof.
  induction gdefs as [|g gdefs IH]; intros new_gdefs w.
  - cbn. unfold bind, ret. by rewrite app_nil_r.
  - cbn. unfold bind.
    destruct (call_create_geoms plt g w) as [w1 [e|[g'|]]]; [done| |].
    + rewrite IH. rewrite (IH [g']). unfold bind.
      destruct (create_geoms_loop plt gdefs [] w1) as [w2 [e|created]]; [done|].
      unfold ret. by rewrite <- app_assoc.
    + rewrite IH. unfold bind.
      by destruct (create_geoms_loop plt gdefs [] w1) as [w2 [e|created]].
Qed.

Lemma create_geoms_ok gdefs plt : ∀ w,
  ∃ w' created,
    create_geoms gdefs plt w = (w', inr created) ∧
    (length created ≤ length gdefs)%nat ∧
    trace w' = trace w ++ map EvCreateGeoms gdefs ∧
    params w' = params w.
Proof.
  unfold create_geoms.
  induction gdefs as [|g gdefs IH]; intros w.
  - exists w, []. split_and!; try done. by rewrite app_nil_r.
  - cbn. unfold bind at 1, call_create_geoms.
    destruct (guide_create_geoms _ _ _ _) as [h r].
    set (w1 := log _ _).
    destruct (IH w1) as (w' & created & Hc & Hlen & Ht & Hp).
    destruct r as [g'|].
    + rewrite create_geoms_loop_acc. rewrite (bind_step _ _ _ _ _ Hc).
      exists w', ([g'] ++ created). split_and!; try done.
      * cbn. lia.
      * rewrite Ht. cbn. by rewrite <- app_assoc.
    + exists w', created. split_and!; try done.
      * cbn. lia.
      * rewrite Ht. cbn. by rewrite <- app_assoc.
Qed.

(** X14. [create_geoms] never raises and asks every definition for its
    geoms once, in the order given; it returns at most as many definitions
    as it was given, and doing it on a list in two parts, one after the
    other, gives the same as doing it on the whole list. *)
Theorem create_geoms_calls gdefs plt w :
  (∃ w' created,
     create_geoms gdefs plt w = (w', inr created) ∧
     (length created ≤ length gdefs)%nat ∧
     trace w' = trace w ++ map EvCreateGeoms gdefs ∧
     params w' = params w) ∧
  (∀ gdefs1 gdefs2,
     gdefs = gdefs1 ++ gdefs2 →
     create_geoms gdefs plt w =
     (let* created1 := create_geoms gdefs1 plt in
      let* created2 := create_geoms gdefs2 plt in
      ret (created1 ++ created2)) w).
Proof.
  split; [apply create_geoms_ok|].
  intros gdefs1 gdefs2 ->. unfold create_geoms. revert w.
  induction gdefs1 as [|g gdefs1 IH]; intros w.
  - cbn. unfold bind at 1, ret at 1. unfold bind.
    by destruct (create_geoms_loop plt gdefs2 [] w) as [w1 [e|created]].
  - cbn. unfold bind.
    destruct (call_create_geoms plt g w) as [w1 [e|[g'|]]]; [done| |].
    + rewrite create_geoms_loop_acc, (create_geoms_loop_acc _ gdefs1 [g']).
      unfold bind. rewrite IH. unfold bind.
      destruct (create_geoms_loop plt gdefs1 [] w1) as [w2 [e|c1]]; cbn; [done|].
      by destruct (create_geoms_loop plt gdefs2 [] w2) as [w3 [e|c2]].
    + rewrite IH. done.
Qed.

(** X15. [draw] never raises and returns one box per definition; it
    first sets the defaults on every definition, in the order given, and
    only then draws them, in the order given; the theme parameters are
    left alone. *)
Theorem draw_defaults_first gdefs w :
  ∃ w' gboxes,
    draw gdefs w = (w', inr gboxes) ∧
    length gboxes = length gdefs ∧
    trace w' = trace w ++ map EvSetDefaults gdefs ++ map EvDraw gdefs ∧
    params w' = params w.
Proof.
  destruct (draw_ok gdefs w) as (w' & gboxes & H & Hlen & Hp & Ht). eauto 10.
Qed.


(** ** [guides.__init__] and [guides.__radd__] *)

(** X16. A guides collection is a fixed point of its constructor:
    constructing a collection from the keywords of an existing one gives
    the same collection. *)
Theorem guides_init_idempotent (kwargs : gmap string value) :
  guides_init (guides_init kwargs) = guides_init kwargs.
Proof.
  set (m := guides_init kwargs).
  assert (Hkeys : ∀ k v, m !! k = Some v → k ∈ aes_names).
  { intros k v Hk. unfold m, guides_init in Hk.
    by apply map_lookup_filter_Some in Hk as [_ Hk]. }
  assert (Hcolour : m !! "colour" = None).
  { destruct (m !! "colour") as [v|] eqn:E; [|done].
    apply Hkeys in E. unfold aes_names in E.
    rewrite !elem_of_cons, elem_of_nil in E.
    repeat (destruct E as [E|E]; [discriminate E|]). done. }
  unfold guides_init at 1. rewrite Hcolour.
  apply map_eq. intros k. destruct (m !! k) as [v|] eqn:E.
  - apply map_lookup_filter_Some. split; [done|]. by eapply Hkeys.
  - apply map_lookup_filter_None. by left.
Qed.

Lemma copy_guides_spec items : ∀ acc s s' new,
  NoDup items.*1 →
  (∀ k, k ∈ items.*1 → acc !! k = None) →
  (∀ k l, (k, VGuide l) ∈ items → (l < next s)%nat) →
  copy_guides items acc s = (s', new) →
  (next s ≤ next s')%nat ∧
  (∀ l, (l < next s)%nat → cells s' l = cells s l) ∧
  (∀ k, k ∉ items.*1 → new !! k = acc !! k) ∧
  (∀ k v, (k, v) ∈ items →
     ∃ v', new !! k = Some v' ∧
       match v with
       | VGuide l =>
           ∃ l', v' = VGuide l' ∧ (next s ≤ l' < next s')%nat ∧
                 cells s' l' = cells s l
       | _ => v' = v
       end) ∧
  (∀ k1 k2 l', k1 ∈ items.*1 → k2 ∈ items.*1 →
     new !! k1 = Some (VGuide l') → new !! k2 = Some (VGuide l') → k1 = k2).
Proof.
  induction items as [|[k v] items IH]; intros acc s s' new Hnd Hacc Hwf H.
  - injection H as <- <-. split_and!; try done.
    + intros k v Hin. by apply elem_of_nil in Hin.
    + intros k1 k2 l' Hin. by apply elem_of_nil in Hin.
  - cbn in Hnd. apply NoDup_cons in Hnd as [Hk Hnd]. cbn [copy_guides] in H.
    destruct (deepcopy v s) as [s1 v1] eqn:Ecopy.
    assert (Hstep : (next s ≤ next s1)%nat ∧
              (∀ l, (l < next s)%nat → cells s1 l = cells s l) ∧
              match v with
              | VGuide l => v1 = VGuide (next s) ∧ next s1 = S (next s) ∧
                            cells s1 (next s) = cells s l
              | _ => v1 = v ∧ s1 = s
              end).
    { destruct v; injection Ecopy as <- <-; cbn; split_and!; try done; try lia.
      - intros l' Hl'. apply upd_ne. lia.
      - by rewrite upd_eq. }
    destruct Hstep as (Hn1 & Hc1 & Hv1).
    apply IH in H as (Hn & Hc & Hout & Hin & Hinj); [|done| |].
    2:{ intros k' Hk'. rewrite lookup_insert_ne by (by intros ->).
        apply Hacc. by right. }
    2:{ intros k' l Hl. assert ((l < next s)%nat); [|lia].
        apply (Hwf k'). by right. }
    assert (Hnew : new !! k = Some v1).
    { rewrite (Hout _ Hk). apply lookup_insert_eq. }
    assert (Hfresh : ∀ k' l', k' ∈ items.*1 → new !! k' = Some (VGuide l') →
                              (next s1 ≤ l')%nat).
    { intros k' l' Hk' Hl'. apply list_elem_of_fmap in Hk' as ([k'' v'] & -> & Hkv).
      destruct (Hin _ _ Hkv) as (v'' & Hv'' & Hcopy). cbn in Hl'.
      rewrite Hl' in Hv''. injection Hv'' as <-.
      destruct v'; try discriminate Hcopy.
      destruct Hcopy as (l'' & [= <-] & Hrange & _). lia. }
    split_and!.
    + lia.
    + intros l Hl. rewrite Hc by lia. by apply Hc1.
    + intros k' Hk'. cbn in Hk'. apply not_elem_of_cons in Hk' as [Hne Hk'].
      rewrite (Hout _ Hk'). by apply lookup_insert_ne.
    + intros k' v' Hkv. apply elem_of_cons in Hkv as [[= -> ->]|Hkv].
      * exists v1. split; [done|]. destruct v; try by destruct Hv1.
        destruct Hv1 as (-> & Hs1 & Hcell). exists (next s).
        split_and!; [done|lia|lia|]. rewrite Hc by lia. done.
      * destruct (Hin _ _ Hkv) as (v'' & Hv'' & Hcopy). exists v''.
        split; [done|]. destruct v'; try done.
        destruct Hcopy as (l' & -> & Hrange & Hcell). exists l'.
        split_and!; [done|lia|lia|]. rewrite Hcell. apply Hc1.
        apply (Hwf k'). by right.
    + intros k1 k2 l' Hk1 Hk2 H1 H2. cbn in Hk1, Hk2.
      apply elem_of_cons in Hk1 as [->|Hk1], Hk2 as [->|Hk2]; [done| | |by eapply Hinj].
      * rewrite Hnew in H1. injection H1 as Hv.
        pose proof (Hfresh _ _ Hk2 H2) as Hge.
        destruct v; destruct Hv1 as [Ha Hb]; try congruence.
        destruct Hb as [Hs1 _]. assert (l' = next s) by congruence. lia.
      * rewrite Hnew in H2. injection H2 as Hv.
        pose proof (Hfresh _ _ Hk1 H1) as Hge.
        destruct v; destruct Hv1 as [Ha Hb]; try congruence.
        destruct Hb as [Hs1 _]. assert (l' = next s) by congruence. lia.
Qed.

(** X17. [gg + guides] never shares a guide object with the collection:
    every guide of the collection reaches the plot as a new object with
    the same attributes, different keys get different objects (also when
    the collection held one object under two keys), values that are not
    guide objects are passed on as they are, the entries of the plot under
    other keys stay, and no existing object is changed. *)
Theorem guides_radd_copies items gg_guides s s' result :
  NoDup items.*1 →
  (∀ k l, (k, VGuide l) ∈ items → (l < next s)%nat) →
  guides_radd items gg_guides s = (s', result) →
  (∀ k, k ∉ items.*1 → result !! k = gg_guides !! k) ∧
  (∀ k v, (k, v) ∈ items →
     ∃ v', result !! k = Some v' ∧
       match v with
       | VGuide l =>
           ∃ l', v' = VGuide l' ∧ (next s ≤ l' < next s')%nat ∧
                 cells s' l' = cells s l
       | _ => v' = v
       end) ∧
  (∀ k1 k2 l', k1 ∈ items.*1 → k2 ∈ items.*1 →
     result !! k1 = Some (VGuide l') → result !! k2 = Some (VGuide l') →
     k1 = k2) ∧
  (∀ l, (l < next s)%nat → cells s' l = cells s l) ∧
  (next s ≤ next s')%nat.
Proof.
  intros Hnd Hwf H. unfold guides_radd in H.
  destruct (copy_guides items ∅ s) as [s1 new] eqn:E. injection H as <- <-.
  apply copy_guides_spec in E as (Hn & Hc & Hout & Hin & Hinj); [|done|done|done].
  assert (Hitem : ∀ k, k ∈ items.*1 → (new ∪ gg_guides) !! k = new !! k).
  { intros k Hk. apply list_elem_of_fmap in Hk as ([k' v] & -> & Hkv).
    destruct (Hin _ _ Hkv) as (v' & Hv' & _). cbn.
    rewrite Hv'. by apply lookup_union_Some_l. }
  split_and!; try done.
  - intros k Hk. rewrite lookup_union_r; [done|]. by rewrite (Hout _ Hk).
  - intros k v Hkv. destruct (Hin _ _ Hkv) as (v' & Hv' & Hcopy).
    exists v'. split; [|done]. rewrite Hitem; [done|].
    apply list_elem_of_fmap. by exists (k, v).
  - intros k1 k2 l' Hk1 Hk2. rewrite !Hitem by done. by apply Hinj.
Qed.


(** ** [train]: the calls *)

Lemma silent_ret {A} (a : A) : silent (ret a).
Proof. by intros w w' r [= <- _]. Qed.

Lemma silent_raise {A} e : silent (@raise A e).
Proof. by intros w w' r [= <- _]. Qed.

Lemma silent_bind {A B} (m : M A) (k : A → M B) :
  silent m → (∀ a, silent (k a)) → silent (bind m k).
Proof.
  intros Hm Hk w w' r H. unfold bind in H.
  destruct (m w) as [w1 [e|a]] eqn:E.
  - injection H as <- _. by apply (Hm _ _ _ E).
  - rewrite (Hk _ _ _ _ H). by apply (Hm _ _ _ E).
Qed.

Lemma silent_read l : silent (read l).
Proof. by intros w w' r [= <- _]. Qed.

Lemma silent_write l f : silent (write l f).
Proof. by intros w w' r [= <- _]. Qed.

Lemma silent_get_param key : silent (get_param key).
Proof. intros w w' r H. by apply get_param_inv in H as [-> _]. Qed.

Lemma silent_get_label plt output : silent (get_label plt output).
Proof.
  unfold get_label. destruct (labels plt !! output);
    [apply silent_ret|apply silent_raise].
Qed.

Ltac solve_silent :=
  repeat first
    [ apply silent_ret | apply silent_raise | apply silent_read
    | apply silent_write | apply silent_get_param | apply silent_get_label
    | apply silent_bind; [|intros ?]
    | case_match ].

Lemma validate_trace guide w w' r :
  validate guide w = (w', r) →
  ∃ evs, trace w' = trace w ++ evs ∧ trained_scales evs = [].
Proof.
  unfold validate, bind. intros H.
  destruct guide as [| |name| | |]; cbn in H;
    try (injection H as <- _; exists []; by rewrite app_nil_r).
  unfold instantiate in H. destruct (Registry !! _) as [ctor|].
  - destruct (ctor (objects w)) as [h v].
    assert (w' = log (EvInstantiate ("guide_" ++ name)%string)
                   (mk_world (params w) h (trace w))) as ->
      by (by destruct v; injection H as <- _).
    by eexists [_].
  - injection H as <- _. exists []. by rewrite app_nil_r.
Qed.

Lemma train_guide_trace plt sc output guide gdefs w w' out :
  train_guide plt sc output guide gdefs w = (w', inr out) →
  ∃ evs, trace w' = trace w ++ evs ∧ trained_scales evs = [scale_id sc].
Proof.
  unfold train_guide. intros H.
  apply bind_inr in H as (w1 & l & Hval & H).
  apply validate_trace in Hval as (evs & Ht1 & Hevs).
  apply bind_inr in H as (w2 & g & Hread & H). injection Hread as <- <-.
  apply bind_inr in H as (w2 & [] & Hcheck & H).
  match type of Hcheck with ?m _ = _ =>
    assert (silent m) as Hs by solve_silent; apply Hs in Hcheck; clear Hs end.
  apply bind_inr in H as (w3 & [] & Htitle & H).
  match type of Htitle with ?m _ = _ =>
    assert (silent m) as Hs by solve_silent; apply Hs in Htitle; clear Hs end.
  apply bind_inr in H as (w4 & g' & Hread & H). injection Hread as <- <-.
  apply bind_inr in H as (w5 & [] & Hdir & H).
  match type of Hdir with ?m _ = _ =>
    assert (silent m) as Hs by solve_silent; apply Hs in Hdir; clear Hs end.
  apply bind_inr in H as (w6 & r & Htrain & H).
  unfold call_train in Htrain. destruct (guide_train _ _ _) as [h' r'].
  injection Htrain as <- <-.
  assert (w' = log (EvTrain l (scale_id sc)) (mk_world (params w5) h' (trace w5)))
    as -> by (by destruct r'; injection H as <- _).
  exists (evs ++ [EvTrain l (scale_id sc)]). cbn. split.
  - by rewrite Hdir, Htitle, Hcheck, Ht1, <- app_assoc.
  - unfold trained_scales in *. by rewrite omap_app, Hevs.
Qed.

Lemma train_loop_trace self plt scs : ∀ gdefs w w' out,
  train_loop self plt scs gdefs w = (w', inr out) →
  ∃ evs, trace w' = trace w ++ evs ∧
         trained_scales evs =
           scale_id <$> filter (λ sc, skipped self sc = false) scs.
Proof.
  induction scs as [|sc scs IH]; intros gdefs w w' out H.
  - injection H as <- _. exists []. by rewrite app_nil_r.
  - rewrite filter_cons. destruct (aesthetics sc) as [|ae rest] eqn:Hae.
    + cbn [train_loop] in H. unfold primary_aes in H. by rewrite Hae in H.
    + rewrite (train_loop_cons _ _ _ _ _ _ _ _ Hae) in H. cbn zeta in H.
      destruct (is_None _ || is_False _) eqn:Hs.
      * rewrite decide_False by (unfold skipped; rewrite Hae; cbn zeta; by rewrite Hs).
        by apply IH in H.
      * rewrite decide_True by (unfold skipped; rewrite Hae; cbn zeta; by rewrite Hs).
        apply bind_inr in H as (w1 & gdefs1 & H1 & H2).
        apply train_guide_trace in H1 as (evs1 & Ht1 & Hevs1).
        apply IH in H2 as (evs2 & Ht2 & Hevs2).
        exists (evs1 ++ evs2). split.
        -- by rewrite Ht2, Ht1, <- app_assoc.
        -- unfold trained_scales in *. rewrite omap_app, Hevs1, Hevs2. done.
Qed.

(** X18. When [train] returns, the [train] method of a guide has been
    called exactly once for every scale that is not passed over, in the
    order of the scales of the plot, and for no other scale; the theme
    parameters are left alone. *)
Theorem train_calls self plt w w' gdefs :
  train self plt w = (w', inr gdefs) →
  ∃ evs,
    trace w' = trace w ++ evs ∧
    trained_scales evs =
      scale_id <$> filter (λ sc, skipped self sc = false) (scales plt) ∧
    params w' = params w.
Proof.
  intros H. destruct (framed_train_loop _ _ _ _ _ _ _ H) as [Hp _].
  apply train_loop_trace in H as (evs & Ht & Hevs). eauto.
Qed.

(** ** [guides.__init__] and [train] together *)

Lemma guides_init_lookup (kwargs : gmap string value) k :
  guides_init kwargs !! k =
    if decide (k ∈ aes_names)
    then if decide (k = "color")
         then match kwargs !! "colour" with
              | Some v => Some v
              | None => kwargs !! "color"
              end
         else kwargs !! k
    else None.
Proof.
  assert (Hcolour : "colour" ∉ aes_names).
  { unfold aes_names. rewrite !not_elem_of_cons. repeat split; try discriminate.
    apply not_elem_of_nil. }
  unfold guides_init. destruct (decide (k ∈ aes_names)) as [Hk|Hk].
  - assert (∀ m : gmap string value,
              filter (λ kv : string * value, kv.1 ∈ aes_names) m !! k = m !! k)
      as ->.
    { intros m. destruct (m !! k) as [v|] eqn:E.
      - by apply map_lookup_filter_Some.
      - apply map_lookup_filter_None. by left. }
    destruct (decide (k = "color")) as [->|Hne].
    + destruct (kwargs !! "colour"); [apply lookup_insert_eq|done].
    + destruct (kwargs !! "colour"); [|done].
      rewrite lookup_insert_ne by done. apply lookup_delete_ne.
      intros <-. by apply Hcolour.
  - apply map_lookup_filter_None. right. intros v _ Hv. by apply Hk.
Qed.

(** X19. What the keywords of [guides(...)] do in [train]: a guide
    given under ['colour'] is the one used for a scale whose first
    aesthetic is ['color'], so [guides(colour=False)] and
    [guides(colour=None)] make [train] pass over that scale; a keyword
    that is not one of the six aesthetics has no effect, the scale's own
    guide is used. *)
Theorem guides_init_resolve (kwargs : gmap string value) sc :
  (∀ v, kwargs !! "colour" = Some v →
        resolve (guides_init kwargs) "color" sc = v) ∧
  (∀ v rest, kwargs !! "colour" = Some v → aesthetics sc = "color" :: rest →
        skipped (guides_init kwargs) sc = is_None v || is_False v) ∧
  (∀ ae, ae ∉ aes_names →
        resolve (guides_init kwargs) ae sc = scale_guide sc) ∧
  (∀ ae rest, ae ∉ aes_names → aesthetics sc = ae :: rest →
        skipped (guides_init kwargs) sc =
          is_None (scale_guide sc) || is_False (scale_guide sc)).
Proof.
  assert (Hcolor : "color" ∈ aes_names) by (unfold aes_names; repeat constructor).
  assert (H1 : ∀ v, kwargs !! "colour" = Some v →
                    resolve (guides_init kwargs) "color" sc = v).
  { intros v Hv. unfold resolve. rewrite guides_init_lookup.
    rewrite decide_True, decide_True, Hv by done. done. }
  assert (H2 : ∀ ae, ae ∉ aes_names →
                     resolve (guides_init kwargs) ae sc = scale_guide sc).
  { intros ae Hae. unfold resolve. rewrite guides_init_lookup.
    by rewrite decide_False. }
  split_and!; [done| |done|].
  - intros v rest Hv Hae. unfold skipped. rewrite Hae. cbn zeta.
    by rewrite (H1 v Hv).
  - intros ae rest Hae Hsc. unfold skipped. rewrite Hsc. cbn zeta.
    by rewrite (H2 ae Hae).
Qed.


(** ** [build]: how many legends *)

Lemma merge_length gdefs w w' merged :
  merge gdefs w = (w', inr merged) → (length merged ≤ length gdefs)%nat.
Proof.
  intros H. unfold merge, bind, data_frame in H.
  set (grouped := groupby (map (λ g, (g, hash (objects w g))) gdefs)) in *.
  pose proof (groupby_concat (objects w) gdefs) as Hperm. fold grouped in Hperm.
  destruct (merge_groups_total grouped (groupby_nonempty (objects w) gdefs) [] w)
    as (w'' & merged' & Hm & Hlen).
  rewrite H in Hm. injection Hm as <- <-.
  apply merge_groups_calls in H as (evs & _ & Hcount & _).
  rewrite Hlen, <- (Permutation_length Hperm). cbn. lia.
Qed.

Section Legends.

Hypothesis argsort_ok : ∀ keys, is_argsort keys (argsort keys).

Lemma assemble_children_length gboxes gdefs w w' box :
  assemble gboxes gdefs w = (w', inr box) →
  length (pk_children box) = length gdefs.
Proof.
  intros H. apply assemble_inr in H as (_ & _ & _ & _ & _ & _ & _ & Hbs).
  apply Forall2_length in Hbs. rewrite <- Hbs.
  destruct (argsort_ok (map (λ gdef, order (objects w' gdef)) gdefs)) as [Hperm _].
  by rewrite (Permutation_length Hperm), length_seq, length_map.
Qed.

(** X20. The box that [build] returns never holds more legends than
    there are scales asking for one: it has at least one child and at most
    as many children as the plot has scales that are not passed over. *)
Theorem build_children self plt w w' bigbox :
  build self plt w = (w', inr (Some bigbox)) →
  (1 ≤ length (pk_children bigbox) ≤
     length (filter (λ sc, skipped self sc = false) (scales plt)))%nat.
Proof.
  intros H. unfold build in H.
  apply bind_inr in H as (w0 & [] & _ & H).
  apply bind_inr in H as (w1 & trained & Htrain & H).
  destruct trained as [|g0 trained]; [discriminate|].
  apply bind_inr in H as (w2 & merged & Hmerge & H).
  apply bind_inr in H as (w3 & gdefs & Hgeoms & H).
  destruct gdefs as [|g gdefs]; [discriminate|].
  apply bind_inr in H as (w4 & gboxes & _ & H).
  apply bind_inr in H as (w5 & box & Hassemble & H).
  injection H as -> ->.
  apply train_loop_length in Htrain. apply merge_length in Hmerge.
  destruct (create_geoms_ok merged plt w2) as (w3' & created & Hc & Hlen & _).
  rewrite Hgeoms in Hc. injection Hc as <- <-.
  apply assemble_children_length in Hassemble. rewrite Hassemble.
  cbn in *. lia.
Qed.

End Legends.


(** X21. Guide definitions that all have the same order: the keys
    handed to [np.argsort] are all equal, and the boxes come out in the
    sequence they were given in exactly when [np.argsort] returns the
    positions of these equal keys in ascending sequence. *)
Theorem assemble_equal_orders gboxes gdefs w w' box o :
  (∀ l, l ∈ gdefs → order (objects w l) = o) →
  assemble gboxes gdefs w = (w', inr box) →
  let idx := argsort (replicate (length gdefs) (normalized o)) in
  Forall2 (λ i b, gboxes !! i = Some b) idx (pk_children box) ∧
  (length gboxes = length gdefs → NoDup gboxes →
   (pk_children box = gboxes ↔ idx = seq 0 (length gdefs))).
Proof.
  intros Ho H idx.
  apply assemble_inr in H as (Hnorm & _ & _ & _ & _ & _ & _ & Hbs).
  apply normalize_orders_ok in Hnorm as (_ & _ & Hin & _).
  assert (Hkeys : map (λ gdef, order (objects w' gdef)) gdefs =
                  replicate (length gdefs) (normalized o)).
  { clear Hbs. induction gdefs as [|g gdefs IH]; [done|]. cbn. f_equal.
    - destruct (Hin g) as [_ ->]; [left|]. rewrite (Ho g) by left.
      by destruct (objects w g).
    - apply IH; intros l Hl; [apply Ho|apply Hin]; by right. }
  rewrite Hkeys in Hbs. fold idx in Hbs. split; [done|].
  intros Hlen Hnd. split.
  - intros Hch. rewrite Hch in Hbs.
    pose proof (Forall2_length _ _ _ Hbs) as Hl.
    apply list_eq. intros p.
    destruct (decide (p < length gdefs)%nat) as [Hp|Hp].
    + rewrite lookup_seq_lt by done. cbn.
      destruct (lookup_lt_is_Some_2 idx p) as [i Hi]; [lia|].
      destruct (Forall2_lookup_l _ _ _ _ _ Hbs Hi) as (b & Hb & Hib).
      rewrite Hi. f_equal. by eapply NoDup_lookup.
    + rewrite lookup_seq_ge by lia. apply lookup_ge_None. lia.
  - intros Hidx. rewrite Hidx in Hbs. apply Forall2_lookups in Hbs.
    rewrite lookups_seq_take in Hbs by lia.
    rewrite <- Hlen, firstn_all in Hbs.
    symmetry. by apply (inj (fmap Some)) in Hbs.
Qed.

End Pipeline.

(** * The pipeline on concrete inputs *)

Lemma key_le_total keys : Total (key_le keys).
Proof. intros i j. unfold key_le. lia. Qed.

Lemma key_le_trans keys : Transitive (key_le keys).
Proof. intros i j k. unfold key_le. lia. Qed.

(** The sample sorting routine delivers what [np.argsort] promises. *)
Lemma argsort_stable_ok keys : is_argsort keys (Sample.argsort_stable keys).
Proof.
  pose proof (key_le_total keys). pose proof (key_le_trans keys). split.
  - apply merge_sort_Permutation.
  - by apply StronglySorted_merge_sort.
Qed.


(** Two guides of order 0 and 3, drawn as boxes 10 and 11: the box of the
    ordered guide comes first and the first guide now has order 100. *)
Lemma assemble_persists_order_witness :
  let w := Sample.filled_world_of
             (Sample.legends (Sample.orders_of [0; 3]) (λ _, "h")) in
  let r := assemble Sample.argsort_stable [10; 11]%nat [0; 1]%nat w in
  let box := mk_packed VPacker [11; 10]%nat (VStr "left") 0 20 in
  r = (r.1, inr box) ∧
  order (objects r.1 0%nat) = 100 ∧
  objects r.1 1%nat = objects w 1%nat.
Proof.
  intros w r box.
  assert (E : r = (r.1, inr box)) by (vm_compute; reflexivity).
  split; [exact E|].
  destruct (assemble_persists_order _ _ _ _ _ _ E) as (H0 & Hn & _).
  split.
  - apply H0; [repeat constructor|reflexivity].
  - apply Hn; [repeat constructor|]. vm_compute. discriminate.
Defined.

(** C1 (counterexample). A plot with one colour scale whose guide has
    order 0: [build] returns the packed box, and the guide object is left
    with order 100. *)
Lemma build_leaves_order_100 :
  let w := Sample.world_of (Sample.legends (λ _, 0) (λ _, "h")) in
  let r := build (Box := nat) Sample.registry Sample.guide_train
             Sample.guide_merge Sample.guide_create_geoms
             Sample.guide_set_defaults Sample.guide_draw Sample.argsort_stable
             ∅ (Sample.plot_of [Sample.color_scale (VGuide 0%nat)]) w in
  order (objects w 0%nat) = 0 ∧
  r.2 = inr (Some (mk_packed VPacker [0%nat] (VStr "left") 0 20)) ∧
  order (objects r.1 0%nat) = 100.
Proof. vm_compute. done. Qed.

Lemma assemble_sorted_witness :
  let w := Sample.filled_world_of
             (Sample.legends (Sample.orders_of [0; 3]) (λ _, "h")) in
  let r := assemble Sample.argsort_stable [10; 11]%nat [0; 1]%nat w in
  let box := mk_packed VPacker [11; 10]%nat (VStr "left") 0 20 in
  r = (r.1, inr box) ∧
  ∃ idx : list nat,
    idx ≡ₚ seq 0 2 ∧
    Forall2 (λ i b, [10; 11]%nat !! i = Some b) idx (pk_children box) ∧
    (∀ (p q i j : nat) gi gj,
       idx !! p = Some i → idx !! q = Some j →
       [0; 1]%nat !! i = Some gi → [0; 1]%nat !! j = Some gj →
       order (objects w gi) = 0 → 1 ≤ order (objects w gj) ≤ 99 →
       (q < p)%nat).
Proof.
  intros w r box.
  assert (E : r = (r.1, inr box)) by (vm_compute; reflexivity).
  split; [exact E|].
  destruct (assemble_sorted Sample.argsort_stable argsort_stable_ok
              _ _ _ _ _ E) as (idx & Hperm & Hboxes & _ & Hlast).
  exists idx. done.
Defined.

Lemma assemble_not_atomic_witness :
  let w := Sample.filled_world_of
             (Sample.legends (Sample.orders_of [0; 0; -1]) (λ _, "h")) in
  let gdefs := [0; 1; 2]%nat in
  let r := assemble Sample.argsort_stable [10; 11; 12]%nat gdefs w in
  r = (r.1, inl order_error) ∧
  ∃ (i : nat) gdef,
    i = 2%nat ∧ gdef = 2%nat ∧
    ¬ (0 ≤ order (objects r.1 gdef) ≤ 99) ∧
    normalize_orders (take i gdefs) w = (r.1, inr tt) ∧
    order (objects r.1 0%nat) = 100 ∧ order (objects r.1 1%nat) = 100.
Proof.
  intros w gdefs r.
  assert (E : r = (r.1, inl order_error)) by (vm_compute; reflexivity).
  split; [exact E|].
  destruct (assemble_not_atomic _ _ _ _ _ E)
    as (i & gdef & Hi & Hbad & H100 & Hrun & _ & Hlast & _).
  assert (Ei : i = 2%nat).
  { assert (H2 : normalize_orders (take 2 gdefs) w = (r.1, inr tt))
      by (vm_compute; reflexivity).
    pose proof (Hlast _ _ H2) as Hge.
    apply lookup_lt_Some in Hi. cbn in Hi. lia. }
  subst i. injection Hi as <-.
  exists 2%nat, 2%nat.
  split; [reflexivity|]. split; [reflexivity|].
  split; [exact Hbad|]. split; [exact Hrun|]. split.
  - apply (H100 0%nat); [lia|reflexivity|reflexivity].
  - apply (H100 1%nat); [lia|reflexivity|reflexivity].
Defined.

Lemma order_error_after_draw_witness :
  let w := Sample.world_of (Sample.legends (λ _, -1) (λ _, "h")) in
  let self : gmap string value := ∅ in
  let plt := Sample.plot_of [Sample.color_scale (VGuide 0%nat)] in
  let r := build (Box := nat) Sample.registry Sample.guide_train
             Sample.guide_merge Sample.guide_create_geoms
             Sample.guide_set_defaults Sample.guide_draw Sample.argsort_stable
             self plt w in
  r = (r.1, inl order_error) ∧
  ∃ gdefs gboxes w1 w2,
    gdefs ≠ [] ∧ length gboxes = length gdefs ∧
    draw Sample.guide_set_defaults Sample.guide_draw gdefs w1 = (w2, inr gboxes) ∧
    assemble Sample.argsort_stable gboxes gdefs w2 = (r.1, inl order_error) ∧
    trace w `prefix_of` trace w1 ∧
    trace r.1 = trace w1 ++ map EvSetDefaults gdefs ++ map EvDraw gdefs.
Proof.
  intros w self plt r.
  assert (E : r = (r.1, inl order_error)) by (vm_compute; reflexivity).
  split; [exact E|].
  exact (proj2 (proj2 (proj2 (order_error_after_draw Sample.registry
                         Sample.guide_train Sample.guide_merge
                         Sample.guide_create_geoms Sample.guide_set_defaults
                         Sample.guide_draw Sample.argsort_stable)))
           self plt w r.1 E).
Defined.

(** C3 (counterexample). A guide of order 100, and likewise one of order
    -1: [build] raises the order error, and by then the guide has been
    trained, given its geoms and drawn. *)
Lemma build_draws_before_order_error :
  let run (o : Z) :=
    build (Box := nat) Sample.registry Sample.guide_train
      Sample.guide_merge Sample.guide_create_geoms
      Sample.guide_set_defaults Sample.guide_draw Sample.argsort_stable
      ∅ (Sample.plot_of [Sample.color_scale (VGuide 0%nat)])
      (Sample.world_of (Sample.legends (λ _, o) (λ _, "h"))) in
  let calls := [EvTrain 0%nat 1; EvCreateGeoms 0%nat; EvSetDefaults 0%nat;
                EvDraw 0%nat] in
  (run 100).2 = inl order_error ∧ trace (run 100).1 = calls ∧
  (run (-1)).2 = inl order_error ∧ trace (run (-1)).1 = calls.
Proof. vm_compute. done. Qed.

Lemma train_resolution_witness :
  let w := Sample.world_of (Sample.legends (λ _, 0) (λ _, "h")) in
  let self : gmap string value := {[ "color" := VNone ]} in
  let color := Sample.color_scale (VGuide 0%nat) in
  let size := Sample.size_scale (VGuide 1%nat) in
  skipped self color = true ∧
  train Sample.registry Sample.guide_train self (Sample.plot_of [color; size]) w =
  train_loop Sample.registry Sample.guide_train self (Sample.plot_of [color; size])
    [size] [] w.
Proof.
  intros w self color size. split; [reflexivity|].
  exact (proj1 (proj2 (train_resolution Sample.registry Sample.guide_train
                         self (Sample.plot_of [color; size]) w))).
Defined.

Lemma validate_cases_witness :
  let w := Sample.world_of (Sample.legends (λ _, 0) (λ _, "h")) in
  validate Sample.registry (VStr "legend") w =
    (log (EvInstantiate "guide_legend") w, inr 5%nat) ∧
  validate Sample.registry (VObj 3) w =
    (w, inl (GgplotError_unknown_guide (VObj 3))) ∧
  ∃ g, validate Sample.registry (VStr "nosuch") w =
         (w, inl (GgplotError_unknown_guide g)).
Proof.
  intros w.
  destruct (validate_cases Sample.registry (VStr "legend") w) as (H1 & _ & _).
  destruct (validate_cases Sample.registry (VObj 3) w) as (_ & _ & H3 & _).
  destruct (validate_cases Sample.registry (VStr "nosuch") w) as (_ & H2 & _).
  split_and!.
  - exact (H1 "legend" (λ h : heap, (h, VGuide 5%nat)) (objects w) (VGuide 5%nat)
             eq_refl eq_refl eq_refl).
  - exact (H3 eq_refl).
  - exact (H2 "nosuch" eq_refl eq_refl).
Defined.

Lemma merge_partitions_witness :
  let hashes := λ l : loc, if decide (l = 1%nat) then "a" else "b" in
  let w := Sample.world_of (Sample.legends (λ _, 0) hashes) in
  let gdefs := [0; 1; 2]%nat in
  let grouped := groupby (map (λ g, (g, hash (objects w g))) gdefs) in
  grouped = [("a", [1%nat]); ("b", [0; 2]%nat)] ∧
  concat (grouped.*2) ≡ₚ gdefs ∧
  ∃ w' merged,
    merge Sample.guide_merge gdefs w = (w', inr merged) ∧
    length merged = length grouped.
Proof.
  intros hashes w gdefs grouped.
  destruct (merge_partitions Sample.guide_merge gdefs w)
    as (_ & _ & _ & Hperm & _ & Htotal).
  split; [by vm_compute|]. split; [exact Hperm|exact Htotal].
Defined.

Lemma build_bottom_witness :
  let w := mk_world Sample.theme_bottom
             (Sample.legends (λ _, 0) (λ _, "h")) [] in
  let r := build (Box := nat) Sample.registry Sample.guide_train
             Sample.guide_merge Sample.guide_create_geoms
             Sample.guide_set_defaults Sample.guide_draw Sample.argsort_stable
             ∅ (Sample.plot_of [Sample.color_scale (VGuide 0%nat)]) w in
  params w !! "legend_position" = Some (VStr "bottom") ∧
  params w !! "legend_direction" = Some VNone ∧
  params w !! "legend_box_just" = Some VNone ∧
  params r.1 !! "legend_direction" = Some (VStr "horizontal") ∧
  params r.1 !! "legend_box_just" = Some (VStr "center").
Proof.
  intros w r.
  destruct (build_bottom Sample.registry Sample.guide_train
              Sample.guide_merge Sample.guide_create_geoms
              Sample.guide_set_defaults Sample.guide_draw Sample.argsort_stable
              ∅ (Sample.plot_of [Sample.color_scale (VGuide 0%nat)]) w r.1 r.2
              VNone (VNum 18) VNone VNone
              eq_refl eq_refl eq_refl eq_refl eq_refl eq_refl eq_refl
              (surjective_pairing r))
    as (Hdir & Hjust & _).
  split_and!; [reflexivity..|exact Hdir|exact Hjust].
Defined.

Lemma build_empty_scales_witness :
  let w := Sample.world_of (Sample.legends (λ _, 0) (λ _, "h")) in
  ∃ w',
    build (Box := nat) Sample.registry Sample.guide_train
      Sample.guide_merge Sample.guide_create_geoms
      Sample.guide_set_defaults Sample.guide_draw Sample.argsort_stable
      ∅ (Sample.plot_of []) w = (w', inr None) ∧
    objects w' = objects w ∧ trace w' = trace w ∧
    params w' !! "legend_box" = Some (VStr "vertical") ∧
    params w' !! "legend_key_width" = Some (VNum 18) ∧
    params w' !! "legend_key_height" = Some (VNum 18) ∧
    params w' !! "legend_position" = Some (VStr "right") ∧
    params w' !! "legend_direction" = Some (VStr "vertical") ∧
    params w' !! "legend_box_just" = Some (VStr "left").
Proof.
  intros w.
  destruct (build_empty_scales (Box := nat) Sample.registry Sample.guide_train
              Sample.guide_merge Sample.guide_create_geoms
              Sample.guide_set_defaults Sample.guide_draw Sample.argsort_stable
              ∅ (Sample.plot_of []) w
              VNone (VNum 18) VNone VNone VNone VNone VNone
              eq_refl eq_refl eq_refl eq_refl eq_refl eq_refl eq_refl eq_refl)
    as (w' & Hb & Ho & Ht & H1 & H2 & H3 & H4 & H5 & H6 & _).
  exists w'. split_and!; done.
Defined.

(** * Further properties on concrete inputs *)

Ltac in_list := solve [repeat constructor].

Ltac cases_in H :=
  rewrite ?elem_of_cons, ?elem_of_nil in H;
  repeat (destruct H as [H|H]); try done; subst.

Lemma sample_zero_once (orders : loc → Z) (hashes : loc → string)
    (gdefs : list loc) :
  NoDup gdefs →
  ∀ (i j : nat) l, gdefs !! i = Some l → gdefs !! j = Some l →
    order (Sample.legends orders hashes l) = 0 → i = j.
Proof. intros Hnd i j l Hi Hj _. by eapply NoDup_lookup. Qed.

Lemma assemble_twice_witness :
  let w := Sample.filled_world_of
             (Sample.legends (Sample.orders_of [0; 3]) (λ _, "h")) in
  let r := assemble Sample.argsort_stable [10; 11]%nat [0; 1]%nat w in
  let box := mk_packed VPacker [11; 10]%nat (VStr "left") 0 20 in
  r = (r.1, inr box) ∧
  ∃ w'', assemble Sample.argsort_stable [10; 11]%nat [0; 1]%nat r.1 =
           (w'', inl order_error).
Proof.
  intros w r box.
  assert (E : r = (r.1, inr box)) by (vm_compute; reflexivity).
  split; [exact E|].
  apply (assemble_twice Sample.argsort_stable _ _ w r.1 box 0%nat E);
    [in_list|reflexivity].
Defined.

Lemma assemble_repeated_zero_witness :
  let w := Sample.filled_world_of (Sample.legends (λ _, 0) (λ _, "h")) in
  ∃ w', assemble Sample.argsort_stable [10; 11]%nat [0; 0]%nat w =
          (w', inl order_error).
Proof.
  intros w.
  apply (assemble_repeated_zero Sample.argsort_stable _ _ w 0%nat 1%nat 0%nat);
    [reflexivity|reflexivity|discriminate|reflexivity].
Defined.

Lemma assemble_keeps_boxes_witness :
  let w := Sample.filled_world_of
             (Sample.legends (Sample.orders_of [0; 3]) (λ _, "h")) in
  let r := assemble Sample.argsort_stable [10; 11]%nat [0; 1]%nat w in
  let box := mk_packed VPacker [11; 10]%nat (VStr "left") 0 20 in
  r = (r.1, inr box) ∧ pk_children box ≡ₚ [10; 11]%nat.
Proof.
  intros w r box.
  assert (E : r = (r.1, inr box)) by (vm_compute; reflexivity).
  split; [exact E|].
  destruct (assemble_keeps_boxes Sample.argsort_stable argsort_stable_ok
              _ _ _ _ _ E) as (_ & _ & Hall).
  exact (Hall eq_refl).
Defined.

Lemma assemble_packer_witness :
  let w := Sample.filled_world_of
             (Sample.legends (Sample.orders_of [0; 3]) (λ _, "h")) in
  ∃ w' children,
    assemble Sample.argsort_stable [10; 11]%nat [0; 1]%nat w =
      (w', inr (mk_packed VPacker children (VStr "left") 0 20)).
Proof.
  intros w.
  destruct (assemble_packer Sample.argsort_stable argsort_stable_ok
              [10; 11]%nat [0; 1]%nat w (VStr "vertical") (VStr "left"))
    as (w' & children & _ & H).
  - intros l Hl. cases_in Hl; vm_compute; split; discriminate.
  - apply sample_zero_once. apply (bool_decide_unpack _). by vm_compute.
  - cbn. lia.
  - reflexivity.
  - reflexivity.
  - exists w', children. exact H.
Defined.

Lemma assemble_short_boxes_witness :
  let w := Sample.filled_world_of
             (Sample.legends (Sample.orders_of [0; 3]) (λ _, "h")) in
  ∃ w', assemble Sample.argsort_stable [10%nat] [0; 1]%nat w =
          (w', inl IndexError) ∧
        order (objects w' 0%nat) = 100.
Proof.
  intros w.
  destruct (assemble_short_boxes Sample.argsort_stable argsort_stable_ok
              [10%nat] [0; 1]%nat w) as (w' & H & Hnorm).
  - intros l Hl. cases_in Hl; vm_compute; split; discriminate.
  - apply sample_zero_once. apply (bool_decide_unpack _). by vm_compute.
  - cbn. lia.
  - exists w'. split; [exact H|]. apply (Hnorm 0%nat). in_list.
Defined.

Lemma sample_theme_keys (h : heap) :
  ∀ key, key ∈ "legend_key_size" :: legend_options →
         is_Some (params (Sample.world_of h) !! key).
Proof.
  intros key Hkey. unfold legend_options in Hkey.
  cases_in Hkey; by eexists.
Qed.

Lemma build_missing_option_witness :
  let w := mk_world Sample.theme_no_size
             (Sample.legends (λ _, 0) (λ _, "h")) [] in
  ∃ w' key',
    build (Box := nat) Sample.registry Sample.guide_train
      Sample.guide_merge Sample.guide_create_geoms
      Sample.guide_set_defaults Sample.guide_draw Sample.argsort_stable
      ∅ (Sample.plot_of [Sample.color_scale (VGuide 0%nat)]) w =
      (w', inl (KeyError key')) ∧
    trace w' = trace w.
Proof.
  intros w.
  destruct (build_missing_option (Box := nat) Sample.registry Sample.guide_train
              Sample.guide_merge Sample.guide_create_geoms
              Sample.guide_set_defaults Sample.guide_draw Sample.argsort_stable
              ∅ (Sample.plot_of [Sample.color_scale (VGuide 0%nat)]) w
              "legend_key_size")
    as (w' & key' & H & _ & _ & Ht).
  - in_list.
  - reflexivity.
  - exists w', key'. split; [exact H|exact Ht].
Defined.

Lemma set_legend_defaults_idempotent_witness :
  let w := Sample.world_of (Sample.legends (λ _, 0) (λ _, "h")) in
  let r := set_legend_defaults w in
  r = (r.1, inr tt) ∧ set_legend_defaults r.1 = (r.1, inr tt).
Proof.
  intros w r.
  assert (E : r = (r.1, inr tt)) by (vm_compute; reflexivity).
  split; [exact E|]. exact (set_legend_defaults_idempotent w r.1 E).
Defined.

Lemma build_all_skipped_witness :
  let w := Sample.world_of (Sample.legends (λ _, 0) (λ _, "h")) in
  let self : gmap string value := {[ "color" := VBool false ]} in
  ∃ w',
    build (Box := nat) Sample.registry Sample.guide_train
      Sample.guide_merge Sample.guide_create_geoms
      Sample.guide_set_defaults Sample.guide_draw Sample.argsort_stable
      self (Sample.plot_of [Sample.color_scale (VGuide 0%nat)]) w =
      (w', inr None) ∧
    trace w' = trace w.
Proof.
  intros w self.
  destruct (build_all_skipped (Box := nat) Sample.registry Sample.guide_train
              Sample.guide_merge Sample.guide_create_geoms
              Sample.guide_set_defaults Sample.guide_draw Sample.argsort_stable
              self (Sample.plot_of [Sample.color_scale (VGuide 0%nat)]) w)
    as (w' & H & _ & _ & Ht).
  - apply sample_theme_keys.
  - intros sc Hsc. cbn in Hsc. cases_in Hsc. reflexivity.
  - exists w'. split; [exact H|exact Ht].
Defined.

Lemma build_packs_witness :
  let w := Sample.world_of (Sample.legends (λ _, 0) (λ _, "h")) in
  let r := build (Box := nat) Sample.registry Sample.guide_train
             Sample.guide_merge Sample.guide_create_geoms
             Sample.guide_set_defaults Sample.guide_draw Sample.argsort_stable
             ∅ (Sample.plot_of [Sample.color_scale (VGuide 0%nat)]) w in
  let bigbox := mk_packed VPacker [0%nat] (VStr "left") 0 20 in
  r = (r.1, inr (Some bigbox)) ∧
  pk_align bigbox = VStr "left" ∧ pk_pad bigbox = 0 ∧ pk_sep bigbox = 20.
Proof.
  intros w r bigbox.
  assert (E : r = (r.1, inr (Some bigbox))) by (vm_compute; reflexivity).
  split; [exact E|].
  destruct (build_packs (Box := nat) Sample.registry Sample.guide_train
              Sample.guide_merge Sample.guide_create_geoms
              Sample.guide_set_defaults Sample.guide_draw Sample.argsort_stable
              ∅ (Sample.plot_of [Sample.color_scale (VGuide 0%nat)]) w r.1
              bigbox VNone VNone VNone eq_refl eq_refl eq_refl E)
    as (_ & Halign & Hpad & Hsep).
  split_and!; [exact Halign|exact Hpad|exact Hsep].
Defined.

Lemma train_guide_cannot_be_used_witness :
  let w := Sample.world_of Sample.fill_only in
  train_guide Sample.registry Sample.guide_train
    (Sample.plot_of []) (Sample.color_scale (VGuide 0%nat)) "color"
    (VGuide 0%nat) [] w =
  (w, inl (GgplotError_cannot_be_used "guide_colorbar" ["color"])).
Proof.
  intros w.
  apply (train_guide_cannot_be_used Sample.registry Sample.guide_train).
  exists 0%nat, ["fill"]. split_and!; try reflexivity.
  rewrite list_elem_of_singleton. discriminate.
Defined.

Lemma train_guide_prepares_witness :
  let w := Sample.world_of (Sample.legends (λ _, 0) (λ _, "h")) in
  let r := train_guide Sample.registry Sample.guide_train
             (Sample.plot_of []) (Sample.color_scale (VGuide 0%nat)) "color"
             (VGuide 0%nat) [] w in
  r = (r.1, inr [0%nat]) ∧
  ∃ (l : loc) (h : heap),
    title (h l) = Some "species" ∧
    params w !! "legend_direction" = Some (direction (h l)).
Proof.
  intros w r.
  assert (E : r = (r.1, inr [0%nat])) by (vm_compute; reflexivity).
  split; [exact E|].
  destruct (train_guide_prepares Sample.registry Sample.guide_train
              (Sample.plot_of []) (Sample.color_scale (VGuide 0%nat)) "color"
              (VGuide 0%nat) [] w r.1 [0%nat] E)
    as (w1 & l & h & Hval & _ & _ & _ & _ & _ & _ & Htitle & _ & Hdir & _).
  injection Hval as <- <-. exists 0%nat, h. split; [exact Htitle|exact Hdir].
Defined.

Lemma merge_calls_witness :
  let w := Sample.world_of (Sample.legends (λ _, 0) Sample.hashes_ba) in
  let r := merge Sample.guide_merge [0; 1; 2]%nat w in
  r = (r.1, inr [1; 0]%nat) ∧
  ∃ evs, trace r.1 = trace w ++ evs ∧ (length evs + 2 = 3)%nat.
Proof.
  intros w r.
  assert (E : r = (r.1, inr [1; 0]%nat)) by (vm_compute; reflexivity).
  split; [exact E|].
  destruct (merge_calls Sample.guide_merge [0; 1; 2]%nat w r.1 [1; 0]%nat E)
    as (evs & Ht & Hlen & _).
  exists evs. split; [exact Ht|exact Hlen].
Defined.

Lemma merge_distinct_witness :
  let w := Sample.world_of (Sample.legends (λ _, 0) Sample.hashes_ba) in
  ∃ merged,
    merge Sample.guide_merge [0; 1]%nat w = (w, inr merged) ∧
    merged ≡ₚ [0; 1]%nat.
Proof.
  intros w.
  destruct (merge_distinct Sample.guide_merge [0; 1]%nat w)
    as (merged & H & Hperm & _).
  - apply (bool_decide_unpack _). by vm_compute.
  - exists merged. split; [exact H|exact Hperm].
Defined.

Lemma guides_radd_copies_witness :
  let r := guides_radd Sample.shared_items ∅ Sample.one_legend in
  ∃ l1 l2,
    r.2 !! "color" = Some (VGuide l1) ∧ r.2 !! "fill" = Some (VGuide l2) ∧
    (1 ≤ l1)%nat ∧ (1 ≤ l2)%nat ∧
    cells r.1 0%nat = cells Sample.one_legend 0%nat.
Proof.
  intros r.
  destruct (guides_radd_copies Sample.shared_items ∅ Sample.one_legend r.1 r.2)
    as (_ & Hin & _ & Hold & _).
  - apply (bool_decide_unpack _). by vm_compute.
  - intros k l Hl. unfold Sample.shared_items in Hl. cases_in Hl;
      injection Hl as _ ->; cbn; lia.
  - apply surjective_pairing.
  - destruct (Hin "color" (VGuide 0%nat)) as (v1 & H1 & l1 & -> & Hr1 & _);
      [in_list|].
    destruct (Hin "fill" (VGuide 0%nat)) as (v2 & H2 & l2 & -> & Hr2 & _);
      [in_list|].
    exists l1, l2. cbn in Hr1, Hr2.
    split_and!; [exact H1|exact H2|lia|lia|apply Hold; cbn; lia].
Defined.

Lemma train_calls_witness :
  let w := Sample.world_of (Sample.legends (λ _, 0) (λ _, "h")) in
  let self : gmap string value := {[ "color" := VNone ]} in
  let plt := Sample.plot_of [Sample.color_scale (VGuide 0%nat);
                             Sample.size_scale (VGuide 1%nat)] in
  let r := train Sample.registry Sample.guide_train self plt w in
  r = (r.1, inr [1%nat]) ∧
  ∃ evs, trace r.1 = trace w ++ evs ∧ trained_scales evs = [2%nat].
Proof.
  intros w self plt r.
  assert (E : r = (r.1, inr [1%nat])) by (vm_compute; reflexivity).
  split; [exact E|].
  destruct (train_calls Sample.registry Sample.guide_train self plt w r.1
              [1%nat] E)
    as (evs & Ht & Hevs & _).
  exists evs. split; [exact Ht|exact Hevs].
Defined.

Lemma guides_init_resolve_witness :
  let kwargs : gmap string value :=
    <["colour" := VBool false]> (<["x" := VStr "legend"]> ∅) in
  skipped (guides_init kwargs) (Sample.color_scale (VGuide 0%nat)) = true ∧
  resolve (guides_init kwargs) "x" (Sample.color_scale (VGuide 0%nat)) =
    VGuide 0%nat.
Proof.
  intros kwargs.
  destruct (guides_init_resolve kwargs (Sample.color_scale (VGuide 0%nat)))
    as (_ & Hskip & Hother & _).
  split.
  - exact (Hskip (VBool false) [] eq_refl eq_refl).
  - apply Hother. unfold aes_names. rewrite !not_elem_of_cons.
    repeat split; try discriminate. apply not_elem_of_nil.
Defined.

Lemma build_children_witness :
  let w := Sample.world_of (Sample.legends (λ _, 0) (λ _, "h")) in
  let r := build (Box := nat) Sample.registry Sample.guide_train
             Sample.guide_merge Sample.guide_create_geoms
             Sample.guide_set_defaults Sample.guide_draw Sample.argsort_stable
             ∅ (Sample.plot_of [Sample.color_scale (VGuide 0%nat)]) w in
  let bigbox := mk_packed VPacker [0%nat] (VStr "left") 0 20 in
  r = (r.1, inr (Some bigbox)) ∧
  (1 ≤ length (pk_children bigbox) ≤ 1)%nat.
Proof.
  intros w r bigbox.
  assert (E : r = (r.1, inr (Some bigbox))) by (vm_compute; reflexivity).
  split; [exact E|].
  exact (build_children (Box := nat) Sample.registry Sample.guide_train
           Sample.guide_merge Sample.guide_create_geoms
           Sample.guide_set_defaults Sample.guide_draw Sample.argsort_stable
           argsort_stable_ok ∅
           (Sample.plot_of [Sample.color_scale (VGuide 0%nat)]) w r.1 bigbox E).
Defined.

Lemma assemble_equal_orders_witness :
  let w := Sample.filled_world_of (Sample.legends (λ _, 0) (λ _, "h")) in
  let r := assemble Sample.argsort_stable [10; 11]%nat [0; 1]%nat w in
  let box := mk_packed VPacker [10; 11]%nat (VStr "left") 0 20 in
  r = (r.1, inr box) ∧
  Sample.argsort_stable (replicate 2 100) = seq 0 2.
Proof.
  intros w r box.
  assert (E : r = (r.1, inr box)) by (vm_compute; reflexivity).
  split; [exact E|].
  destruct (assemble_equal_orders Sample.argsort_stable
              [10; 11]%nat [0; 1]%nat w r.1 box 0 (λ _ _, eq_refl) E)
    as [_ H].
  apply H; [reflexivity| |reflexivity].
  apply (bool_decide_unpack _). reflexivity.
Defined.
